(** * Rutas de coste mínimo entre almacenes: modelo de [intento3.py]

    El núcleo del programa construye un grafo dirigido ponderado a partir
    de una lista de rutas ([construir_grafo]), calcula distancias mínimas
    desde un origen con una cola de prioridad ([Dijkstra]), reconstruye el
    camino siguiendo los predecesores ([reconstruir_camino]) y resuelve un
    lote de envíos ([procesar_envios]).

    Convenciones del modelo.
    - Los diccionarios de Python son [gmap] con claves [string]; el
      conjunto [nodos] es un [gset].  Ningún resultado del programa depende
      del orden de iteración de esos contenedores.
    - Los pesos y las distancias son los [float] de Python (la columna
      [distancia] de la tabla de rutas es [REAL]): números binary64 de
      IEEE 754, aquí [spec_float] con precisión 53 y exponente
      máximo 1024.  La suma es [SFadd], que redondea al más cercano y
      desborda a infinito; las comparaciones son [SFltb] y [SFeqb].  El
      entero [0] con que el programa inicia la distancia del origen se
      comporta en sumas y comparaciones como el cero positivo.
    - [heapq] se modela por el multiconjunto que contiene: [heappop] extrae
      el mínimo para el orden de las tuplas [(distancia, nodo)], que es todo
      lo que el programa observa del montículo.
    - Los bucles [while] llevan combustible; [Agotado] significa que el
      bucle seguía en marcha cuando se acabó.  Una clave ausente en
      [d[k]] es [KeyError].
    - De [construir_grafo] sólo se modela el diccionario (no el objeto
      [networkx]); [print] y [mostrar_grafo] quedan fuera. *)

From Stdlib Require Import ZArith Lia SpecFloat.
From stdpp Require Import gmap strings list fin_maps.

Local Open Scope Z_scope.

(** ** Resultados con error *)

Inductive res (A : Type) : Type :=
| Ok (a : A)
| KeyError
| Agotado.
Arguments Ok {A} a.
Arguments KeyError {A}.
Arguments Agotado {A}.

Definition res_bind {A B} (m : res A) (f : A → res B) : res B :=
  match m with
  | Ok a => f a
  | KeyError => KeyError
  | Agotado => Agotado
  end.

Notation "x ←r m ; k" := (res_bind m (λ x, k))
  (at level 20, m at level 100, k at level 200, right associativity,
   format "x  ←r  m ;  '/' k").

Fixpoint foldM {A B} (f : A → B → res A) (a : A) (l : list B) : res A :=
  match l with
  | [] => Ok a
  | b :: l' => a' ←r f a b; foldM f a' l'
  end.

Fixpoint mapM {A B} (f : A → res B) (l : list A) : res (list B) :=
  match l with
  | [] => Ok []
  | a :: l' => b ←r f a; bs ←r mapM f l'; Ok (b :: bs)
  end.

(** ** Números *)

Definition prec : Z := 53.
Definition emax : Z := 1024.

Abbreviation num := spec_float (only parsing).

(** [x + y] de Python sobre [float]. *)
Definition suma (x y : num) : num := SFadd prec emax x y.

(** [float('inf')]. *)
Definition inf : num := S754_infinity false.

(** El [0] inicial de [dist[origen]]. *)
Definition cero : num := S754_zero false.

(** El [float] más cercano a [m * 2^e]. *)
Definition dbl (m e : Z) : num := binary_normalize prec emax m e false.

Global Instance num_eq_dec : EqDecision spec_float.
Proof. solve_decision. Defined.

(** ** Grafo *)

Abbreviation nodo := string (only parsing).
Abbreviation adyacencia := (gmap string spec_float) (only parsing).
Abbreviation grafo_t := (gmap string (gmap string spec_float)) (only parsing).
Abbreviation ruta := (string * string * spec_float)%type (only parsing).

(** [grafo.setdefault(n, {})] usado sólo por su efecto. *)
Definition setdefault_vacio (grafo : grafo_t) (n : nodo) : grafo_t :=
  match grafo !! n with
  | Some _ => grafo
  | None => <[n := ∅]> grafo
  end.

(** Cuerpo del primer bucle de [construir_grafo]. *)
Definition agregar_ruta (st : grafo_t * gset string) (r : ruta)
  : grafo_t * gset string :=
  let '(grafo, nodos) := st in
  let '(origen, destino, dista) := r in
  let nodos := nodos ∪ {[origen]} ∪ {[destino]} in
  let grafo := setdefault_vacio grafo origen in
  let ady := default ∅ (grafo !! origen) in
  (<[origen := <[destino := dista]> ady]> grafo, nodos).

Definition construir_grafo (rutas : list ruta) : grafo_t :=
  let '(grafo, nodos) := foldl agregar_ruta (∅, ∅) rutas in
  foldl setdefault_vacio grafo (elements nodos).

(** ** Cola de prioridad *)

Abbreviation entrada := (spec_float * string)%type (only parsing).

(** Comparación [a < b] de tuplas de Python: si los primeros componentes
    son iguales ([==]) deciden los segundos; si no, los primeros. *)
Definition tupla_ltb (a b : entrada) : bool :=
  if SFeqb a.1 b.1 then String.ltb a.2 b.2 else SFltb a.1 b.1.

Definition heappush (heap : list entrada) (e : entrada) : list entrada :=
  e :: heap.

Fixpoint heappop (heap : list entrada) : option (entrada * list entrada) :=
  match heap with
  | [] => None
  | e :: l =>
      match heappop l with
      | None => Some (e, [])
      | Some (m, r) => if tupla_ltb m e then Some (m, e :: r) else Some (e, l)
      end
  end.

(** ** Dijkstra *)

Abbreviation dist_t := (gmap string spec_float) (only parsing).
Abbreviation prev_t := (gmap string (option string)) (only parsing).
Abbreviation estado := (dist_t * prev_t * list entrada)%type (only parsing).

(** Cuerpo del [for v, peso in grafo[u].items()]. *)
Definition relajar (u : nodo) (d_u : num) (st : estado) (vp : string * num)
  : res estado :=
  let '(dist, prev, heap) := st in
  let '(v, peso) := vp in
  let alt := suma d_u peso in
  match dist !! v with
  | None => KeyError
  | Some dv =>
      if SFltb alt dv
      then Ok (<[v := alt]> dist, <[v := Some u]> prev, heappush heap (alt, v))
      else Ok st
  end.

(** El [while heap:] con [n] vueltas de combustible. *)
Fixpoint Dijkstra_bucle (n : nat) (grafo : grafo_t) (st : estado)
  : res (dist_t * prev_t) :=
  let '(dist, prev, heap) := st in
  match heappop heap with
  | None => Ok (dist, prev)
  | Some ((d_u, u), heap') =>
      match n with
      | O => Agotado
      | S n' =>
          match dist !! u with
          | None => KeyError
          | Some du =>
              if SFltb du d_u
              then Dijkstra_bucle n' grafo (dist, prev, heap')
              else
                match grafo !! u with
                | None => KeyError
                | Some ady =>
                    st' ←r foldM (relajar u d_u) (dist, prev, heap')
                                 (map_to_list ady);
                    Dijkstra_bucle n' grafo st'
                end
          end
      end
  end.

Definition Dijkstra (n : nat) (grafo : grafo_t) (origen : nodo)
  : res (dist_t * prev_t) :=
  let dist : dist_t := (λ _, inf) <$> grafo in
  let prev : prev_t := (λ _, None) <$> grafo in
  match grafo !! origen with
  | None => Ok (dist, prev)
  | Some _ =>
      let dist := <[origen := cero]> dist in
      Dijkstra_bucle n grafo (dist, prev, [(cero, origen)])
  end.

(** ** Reconstrucción del camino *)

(** El [while u is not None:]. *)
Fixpoint caminar (n : nat) (prev : prev_t) (origen : nodo)
    (u : option string) (camino : list string) : res (list string) :=
  match u with
  | None => Ok camino
  | Some u' =>
      match n with
      | O => Agotado
      | S n' =>
          let camino := u' :: camino in
          if decide (u' = origen) then Ok camino
          else
            match prev !! u' with
            | None => KeyError
            | Some p => caminar n' prev origen p camino
            end
      end
  end.

Definition reconstruir_camino (n : nat) (prev : prev_t) (origen destino : nodo)
  : res (list string) :=
  match prev !! destino with
  | None => Ok []
  | Some _ =>
      camino ←r caminar n prev origen (Some destino) [];
      match camino with
      | c0 :: _ => if decide (c0 = origen) then Ok camino else Ok []
      | [] => Ok []
      end
  end.

(** ** Envíos *)

(** Los tres textos que compone [procesar_envios], con los valores que
    interpolan. *)
Inductive mensaje : Type :=
| MsgOrigenDesconocido (id_envio : Z) (origen destino : string)
| MsgNoEncontrada (id_envio : Z) (origen destino : string)
| MsgRuta (id_envio : Z) (origen destino : string) (d : num) (ruta : list string).

Record resultado : Type := Resultado {
  r_id : Z;
  r_origen : string;
  r_destino : string;
  r_dist : option spec_float;
  r_camino : option (list string);
  r_msg : mensaje
}.

Abbreviation envio := (Z * string * string)%type (only parsing).

Definition procesar_envio (n : nat) (grafo : grafo_t) (e : envio)
  : res resultado :=
  let '(id_envio, origen, destino) := e in
  dp ←r Dijkstra n grafo origen;
  let '(dist, prev) := dp in
  match grafo !! origen with
  | None =>
      Ok (Resultado id_envio origen destino None None
            (MsgOrigenDesconocido id_envio origen destino))
  | Some _ =>
      match dist !! destino with
      | None =>
          Ok (Resultado id_envio origen destino None None
                (MsgNoEncontrada id_envio origen destino))
      | Some d =>
          if SFeqb d inf
          then Ok (Resultado id_envio origen destino None None
                     (MsgNoEncontrada id_envio origen destino))
          else
            camino ←r reconstruir_camino n prev origen destino;
            Ok (Resultado id_envio origen destino (Some d) (Some camino)
                  (MsgRuta id_envio origen destino d camino))
      end
  end.

Definition procesar_envios (n : nat) (grafo : grafo_t) (envios : list envio)
  : res (list resultado) :=
  mapM (procesar_envio n grafo) envios.

(** Estado de un resultado, leído de la tupla que devuelve el programa. *)
Inductive estado_envio : Type := RESOLVED | ORIGIN_UNKNOWN | UNREACHABLE.

Definition estado_de (r : resultado) : estado_envio :=
  match r_dist r, r_msg r with
  | Some _, _ => RESOLVED
  | None, MsgOrigenDesconocido _ _ _ => ORIGIN_UNKNOWN
  | None, _ => UNREACHABLE
  end.

(** ** Escenario del programa principal *)

Definition rutas_ejemplo : list ruta :=
  [("A", "B", dbl 5 0); ("A", "C", dbl 10 0); ("B", "C", dbl 3 0);
   ("C", "D", dbl 3 (-1)); ("B", "D", dbl 9 0)]%string.

Definition envios_ejemplo : list envio :=
  [(1, "A", "D"); (2, "B", "A"); (3, "A", "C"); (4, "Z", "A")]%string.

(** ** Vocabulario de las propiedades *)

(** Peso de la arista [u → v], si existe. *)
Definition peso (grafo : grafo_t) (u v : nodo) : option spec_float :=
  ady ← grafo !! u; ady !! v.

(** Todo destino de una arista es clave del grafo. *)
Definition grafo_cerrado (grafo : grafo_t) : Prop :=
  map_Forall (λ _ ady, map_Forall (λ v (_ : spec_float), is_Some (grafo !! v)) ady)
             grafo.

(** ** Aritmética de los [float]

    Los números que maneja [Dijkstra] con pesos no negativos son el cero
    positivo, los finitos positivos y el infinito positivo.  A cada uno se
    le asigna un entero, su valor en unidades de [2^-1074], y la suma
    redondeada se describe sobre esos enteros. *)

(** Número de cifras binarias de [N > 0]. *)
Definition dig (N : Z) : Z := Z.log2 N + 1.

(** Exponente, en unidades de [2^-1074], de los [float] del tamaño de [N]. *)
Definition expo (N : Z) : Z := Z.max (dig N - prec) 0.

(** [N / 2^t] redondeado al entero más cercano, al par en caso de empate. *)
Definition rne (N t : Z) : Z :=
  let q := N / 2 ^ t in
  let R := N mod 2 ^ t in
  match 2 * R ?= 2 ^ t with
  | Lt => q
  | Eq => if Z.even q then q else q + 1
  | Gt => q + 1
  end.

(** El múltiplo de [2^(expo N)] más cercano a [N]. *)
Definition Rnd (N : Z) : Z := rne N (expo N) * 2 ^ expo N.

(** Valor de la mantisa [m] con exponente [e]. *)
Definition val (m : positive) (e : Z) : Z := Zpos m * 2 ^ (e + 1074).

(** La pareja mantisa-exponente es la de un [float]. *)
Definition canon (m : positive) (e : Z) : Prop :=
  -1074 <= e /\ dig (Zpos m) <= 53 /\ (-1074 < e -> dig (Zpos m) = 53).

(** Lo que dicen los bits de redondeo [r] y [s] del resto [R] de dividir
    entre [P]. *)
Definition locrel (r s : bool) (R P : Z) : Prop :=
  match r, s with
  | false, false => R = 0
  | false, true => 0 < 2 * R < P
  | true, false => 2 * R = P
  | true, true => P < 2 * R
  end.

(** Valor, en unidades de [2^-1074], a partir del cual la suma desborda:
    [2^1024]. *)
Definition tope : Z := 2 ^ 2098.

(** Cero positivo, finito positivo bien formado o infinito positivo. *)
Definition nnb (x : num) : bool :=
  match x with
  | S754_zero false | S754_infinity false => true
  | S754_finite false m e => bounded prec emax m e
  | _ => false
  end.

(** Los [float] no negativos por los que pasa [Dijkstra]. *)
Definition nn (x : num) : Prop := nnb x = true.

(** Un peso admisible: un [float] bien formado con [0 <= w]. *)
Definition peso_ok (w : num) : bool := valid_binary prec emax w && SFleb cero w.

(** Valor de un [float] no negativo en unidades de [2^-1074]; el del
    infinito es [tope]. *)
Definition valor (x : num) : Z :=
  match x with
  | S754_zero _ => 0
  | S754_finite false m e => val m e
  | S754_infinity false => tope
  | _ => -1
  end.

(** La suma de [float] vista sobre los valores. *)
Definition suma_valor (a b : Z) : Z :=
  if (a =? tope) || (b =? tope) then tope
  else if a + b =? 0 then 0 else Z.min tope (Rnd (a + b)).

(** Todos los pesos del grafo son [float] con [0 <= w]. *)
Definition pesos_no_negativos (grafo : grafo_t) : Prop :=
  map_Forall (λ _ ady, map_Forall (λ (_ : string) w, peso_ok w = true) ady) grafo.

Definition rutas_no_negativas (rutas : list ruta) : Prop :=
  Forall (λ r : ruta, peso_ok r.2 = true) rutas.

(** Pares consecutivos de un camino, como [zip(ruta, ruta[1:])]. *)
Definition aristas_de (p : list string) : list (string * string) :=
  zip p (tail p).

(** Un paso de la suma: añade el peso de la arista [e], si existe. *)
Definition paso_camino (grafo : grafo_t) (acc : option spec_float)
    (e : string * string) : option spec_float :=
  a ← acc; w ← peso grafo e.1 e.2; Some (suma a w).

(** Suma de [float], de izquierda a derecha y desde [0], de los pesos de
    las aristas de un camino; [None] si algún par consecutivo no es arista
    del grafo. *)
Definition distancia_camino (grafo : grafo_t) (p : list string)
  : option spec_float :=
  foldl (paso_camino grafo) (Some cero) (aristas_de p).

Definition num_aristas (grafo : grafo_t) : nat :=
  sum_list (size <$> (map_to_list grafo).*2).

(** Vueltas que bastan a los dos bucles [while] sobre un grafo cerrado de
    pesos no negativos. *)
Definition combustible (grafo : grafo_t) : nat :=
  S (num_aristas grafo + size grafo).

(** La distancia de [v] ya no es la infinita inicial: [dist[v] != inf]. *)
Definition finita (dist : dist_t) (v : nodo) : Prop :=
  ∃ d, dist !! v = Some d ∧ SFeqb d inf = false.

(** Invariante del bucle de [Dijkstra] que vale para cualquier grafo. *)
Record inv_basico (grafo : grafo_t) (origen : nodo)
    (dist : dist_t) (prev : prev_t) (heap : list entrada) : Prop := {
  ib_dom_dist : dom dist = dom grafo;
  ib_dom_prev : dom prev = dom grafo;
  ib_origen : finita dist origen;
  ib_cadena : ∀ v, finita dist v →
    v = origen ∨ ∃ u, prev !! v = Some (Some u) ∧ finita dist u;
  ib_heap : ∀ k v, (k, v) ∈ heap → finita dist v
}.

(** [alt < dist[v]] para la arista de peso [w] hacia [v] desde un nodo
    extraído con clave [k]. *)
Definition mejora (dist : dist_t) (k : spec_float) (v : nodo) (w : spec_float)
  : bool :=
  match dist !! v with
  | Some dv => SFltb (suma k w) dv
  | None => false
  end.

(** Invariante del bucle con pesos no negativos.  [cerrados] lleva, del
    más reciente al más antiguo, los nodos cuyas aristas ya se relajaron;
    [m] es la última clave extraída. *)
Record inv_dijkstra (grafo : grafo_t) (origen : nodo)
    (cerrados : list string) (m : spec_float)
    (dist : dist_t) (prev : prev_t) (heap : list entrada) : Prop := {
  id_basico : inv_basico grafo origen dist prev heap;
  id_m : nn m;
  id_nodup : NoDup cerrados;
  id_origen : dist !! origen = Some cero ∧ prev !! origen = Some None;
  id_nn : ∀ v d, dist !! v = Some d → nn d;
  id_heap : ∀ k v, (k, v) ∈ heap →
    nn k ∧ valor m <= valor k ∧ valor k < tope ∧
    ∃ d, dist !! v = Some d ∧ valor d <= valor k;
  id_pend : ∀ v d, dist !! v = Some d → valor d < tope →
    v ∈ cerrados ∨ (d, v) ∈ heap;
  id_cerrados : ∀ v, v ∈ cerrados →
    ∃ d, dist !! v = Some d ∧ valor d < tope ∧ valor d <= valor m ∧
         ∀ x w, peso grafo v x = Some w →
                ∃ dx, dist !! x = Some dx ∧ valor dx <= valor (suma d w);
  id_prev : ∀ v u, prev !! v = Some (Some u) →
    u ∈ cerrados ∧
    ∃ w d, peso grafo u v = Some w ∧ dist !! u = Some d ∧
           dist !! v = Some (suma d w) ∧ valor (suma d w) < tope;
  id_orden : ∀ l1 v l2 u, cerrados = l1 ++ v :: l2 →
    prev !! v = Some (Some u) → u ∈ l2
}.

(** Aristas de los nodos aún no cerrados: cota de las inserciones que
    quedan en la cola. *)
Definition coste_pendiente (cerrados : list string)
    (ua : string * gmap string spec_float) : nat :=
  if decide (ua.1 ∈ cerrados) then 0%nat else size ua.2.

Definition pendiente (grafo : grafo_t) (cerrados : list string) : nat :=
  sum_list (coste_pendiente cerrados <$> map_to_list grafo).

(** Un resultado resuelto lleva un camino válido cuya suma es la distancia. *)
Definition camino_valido (grafo : grafo_t) (r : resultado) : Prop :=
  ∃ d p, r_dist r = Some d ∧ r_camino r = Some p ∧
         head p = Some (r_origen r) ∧ last p = Some (r_destino r) ∧
         length (aristas_de p) = (length p - 1)%nat ∧
         Forall (λ e, is_Some (peso grafo e.1 e.2)) (aristas_de p) ∧
         distancia_camino grafo p = Some d.

(** El resultado [r] responde al envío [e]. *)
Definition mismo_envio (e : envio) (r : resultado) : Prop :=
  r_id r = e.1.1 ∧ r_origen r = e.1.2 ∧ r_destino r = e.2.

Definition grafo_ejemplo : grafo_t := construir_grafo rutas_ejemplo.

Definition resultados_ejemplo : list resultado :=
  [Resultado 1 "A" "D" (Some (dbl 19 (-1))) (Some ["A"; "B"; "C"; "D"])
     (MsgRuta 1 "A" "D" (dbl 19 (-1)) ["A"; "B"; "C"; "D"]);
   Resultado 2 "B" "A" None None (MsgNoEncontrada 2 "B" "A");
   Resultado 3 "A" "C" (Some (dbl 8 0)) (Some ["A"; "B"; "C"])
     (MsgRuta 3 "A" "C" (dbl 8 0) ["A"; "B"; "C"]);
   Resultado 4 "Z" "A" None None (MsgOrigenDesconocido 4 "Z" "A")]%string.

Global Instance mensaje_eq_dec : EqDecision mensaje.
Proof. solve_decision. Defined.
Global Instance resultado_eq_dec : EqDecision resultado.
Proof. solve_decision. Defined.
Global Instance res_eq_dec `{EqDecision A} : EqDecision (res A).
Proof. solve_decision. Defined.

(** ** Vocabulario de las propiedades adicionales *)

(** Peso de la última ruta de [rutas] que va de [o] a [d]. *)
Definition ultimo_peso (rutas : list ruta) (o d : nodo) : option spec_float :=
  last (omap (λ r : ruta,
                if decide (r.1.1 = o ∧ r.1.2 = d) then Some r.2 else None)
             rutas).

(** [x] es origen o destino de alguna ruta. *)
Definition nodo_de (rutas : list ruta) (x : nodo) : Prop :=
  ∃ o d w, (o, d, w) ∈ rutas ∧ (x = o ∨ x = d).

(** [p] es un camino de [o] a [d] por aristas del grafo cuyos pesos,
    sumados como [float] de izquierda a derecha, dan [w]. *)
Definition es_camino (grafo : grafo_t) (o d : nodo) (p : list string)
    (w : spec_float) : Prop :=
  head p = Some o ∧ last p = Some d ∧ distancia_camino grafo p = Some w.

(** Invariante del bucle de [Dijkstra] para pesos de cualquier signo:
    cada entrada de la cola lleva la distancia de su nodo o una mayor, y
    todo nodo que ha dejado la distancia infinita inicial está pendiente en
    la cola con su distancia o ya no tiene arista que mejore a un vecino. *)
Record inv_etiquetas (grafo : grafo_t) (origen : nodo)
    (dist : dist_t) (prev : prev_t) (heap : list entrada) : Prop := {
  ie_basico : inv_basico grafo origen dist prev heap;
  ie_heap : ∀ k v, (k, v) ∈ heap →
    ∃ d, dist !! v = Some d ∧ (d = k ∨ SFltb d k = true);
  ie_pend : ∀ v d, dist !! v = Some d →
    d = inf ∨ (d, v) ∈ heap ∨
    ∀ x w, peso grafo v x = Some w →
           ∃ dx, dist !! x = Some dx ∧ SFltb (suma d w) dx = false
}.

(** Un grafo con una arista de peso negativo y sin ciclos. *)
Definition rutas_con_negativa : list ruta :=
  [("A", "B", dbl 5 0); ("A", "C", dbl 2 0); ("C", "B", dbl (-1) 0)]%string.

(** Un mapa de predecesores suelto, para probar la reconstrucción. *)
Definition prev_suelto : gmap string (option string) :=
  {[ "A" := None; "B" := Some "A"; "C" := Some "B"; "D" := None ]}%string.

(** Pesos decimales que no son exactos en binario: 0.1, 0.7 y 0.8. *)
Definition rutas_decimales : list ruta :=
  [("A", "B", dbl 3602879701896397 (-55));
   ("B", "C", dbl 3152519739159347 (-52));
   ("A", "C", dbl 3602879701896397 (-52))]%string.

(** Dos pesos cuya suma desborda: [2^1023] cada uno. *)
Definition rutas_enormes : list ruta :=
  [("A", "B", dbl 1 1023); ("B", "C", dbl 1 1023)]%string.

(** ** La suma de [float] sobre los valores *)

Lemma pow2_pos t : 0 <= t -> 0 < 2 ^ t.
Proof. intros. apply Z.pow_pos_nonneg; lia. Qed.

Lemma tope_pos : 0 < tope.
Proof. unfold tope. by apply pow2_pos. Qed.

Lemma pow2_split a b : 0 <= a <= b -> 2 ^ b = 2 ^ (b - a) * 2 ^ a.
Proof. intros. rewrite <- Z.pow_add_r by lia. f_equal. lia. Qed.

Lemma dig_bounds N : 0 < N -> 2 ^ (dig N - 1) <= N < 2 ^ dig N.
Proof.
  intros HN. unfold dig. replace (Z.log2 N + 1 - 1) with (Z.log2 N) by lia.
  apply Z.log2_spec in HN. unfold Z.succ in HN. lia.
Qed.

Lemma dig_pos N : 0 < N -> 1 <= dig N.
Proof. intros. unfold dig. pose proof (Z.log2_nonneg N). lia. Qed.

Lemma dig_unique N d : 1 <= d -> 2 ^ (d - 1) <= N < 2 ^ d -> dig N = d.
Proof.
  intros Hd HN. unfold dig. rewrite (Z.log2_unique N (d - 1)); [lia|lia|].
  unfold Z.succ. replace (d - 1 + 1) with d by lia. done.
Qed.

Lemma dig_mono N1 N2 : 0 < N1 <= N2 -> dig N1 <= dig N2.
Proof. intros. unfold dig. pose proof (Z.log2_le_mono N1 N2). lia. Qed.

Lemma dig_shift N k : 0 < N -> 0 <= k -> dig (N * 2 ^ k) = dig N + k.
Proof.
  intros HN Hk. pose proof (dig_bounds N HN) as [H1 H2]. pose proof (dig_pos N HN).
  apply dig_unique; [lia|].
  replace (dig N + k - 1) with (dig N - 1 + k) by lia.
  rewrite !Z.pow_add_r by lia. pose proof (pow2_pos k Hk). nia.
Qed.

Lemma expo_nonneg N : 0 <= expo N.
Proof. unfold expo. lia. Qed.

Lemma expo_mono N1 N2 : 0 < N1 <= N2 -> expo N1 <= expo N2.
Proof. intros. unfold expo. pose proof (dig_mono N1 N2). lia. Qed.

Lemma expo_le_dig N : 0 < N -> expo N <= dig N - 1.
Proof. intros. unfold expo, prec. pose proof (dig_pos N). lia. Qed.

Lemma rne_bounds N t : 0 <= t -> N / 2 ^ t <= rne N t <= N / 2 ^ t + 1.
Proof.
  intros. unfold rne. destruct (2 * (N mod 2 ^ t) ?= 2 ^ t); [|lia..].
  destruct (Z.even _); lia.
Qed.

Lemma rne_exact N t : 0 <= t -> N mod 2 ^ t = 0 -> rne N t = N / 2 ^ t.
Proof.
  intros Ht Hm. unfold rne. rewrite Hm. pose proof (pow2_pos t Ht).
  destruct (Z.compare_spec (2 * 0) (2 ^ t)); lia.
Qed.

Lemma rne_mono N1 N2 t : 0 <= t -> N1 <= N2 -> rne N1 t <= rne N2 t.
Proof.
  intros Ht HN. pose proof (pow2_pos t Ht) as HP.
  pose proof (Z.div_le_mono N1 N2 (2 ^ t) HP HN) as Hq.
  pose proof (rne_bounds N1 t Ht). pose proof (rne_bounds N2 t Ht).
  destruct (Z.eq_dec (N1 / 2 ^ t) (N2 / 2 ^ t)) as [Heq|Hne]; [|lia].
  pose proof (Z.div_mod N1 (2 ^ t)). pose proof (Z.div_mod N2 (2 ^ t)).
  assert (N1 mod 2 ^ t <= N2 mod 2 ^ t) by nia.
  unfold rne. rewrite Heq.
  destruct (Z.compare_spec (2 * (N1 mod 2 ^ t)) (2 ^ t));
    destruct (Z.compare_spec (2 * (N2 mod 2 ^ t)) (2 ^ t));
    destruct (Z.even (N2 / 2 ^ t)); lia.
Qed.

Lemma Rnd_mono N1 N2 : 0 < N1 <= N2 -> Rnd N1 <= Rnd N2.
Proof.
  intros HN. unfold Rnd.
  pose proof (expo_mono N1 N2 HN) as Ht. pose proof (expo_nonneg N1) as Ht1.
  pose proof (pow2_pos (expo N1) Ht1) as HP1.
  pose proof (pow2_pos (expo N2) ltac:(lia)) as HP2.
  destruct (Z.eq_dec (expo N1) (expo N2)) as [Heq|Hne].
  { rewrite Heq in *. pose proof (rne_mono N1 N2 (expo N2) ltac:(lia) ltac:(lia)). nia. }
  assert (expo N1 < expo N2) as Hlt by lia.
  assert (0 < N2) as HN2 by lia.
  pose proof (dig_bounds N1 ltac:(lia)) as [_ Hd1].
  pose proof (dig_bounds N2 HN2) as [Hd2 _].
  pose proof (expo_le_dig N1 ltac:(lia)) as Hl1.
  pose proof (expo_le_dig N2 HN2) as Hl2.
  assert (dig N1 <= dig N2 - 1) as Hdd by (unfold expo in *; lia).
  (* upper bound for the first *)
  assert (rne N1 (expo N1) * 2 ^ expo N1 <= 2 ^ dig N1) as Hup.
  { pose proof (rne_bounds N1 (expo N1) Ht1) as [_ Hr].
    rewrite (pow2_split (expo N1) (dig N1)) in Hd1 |- * by lia.
    pose proof (pow2_pos (dig N1 - expo N1) ltac:(lia)).
    assert (N1 / 2 ^ expo N1 < 2 ^ (dig N1 - expo N1)).
    { apply Z.div_lt_upper_bound; [lia|]. lia. }
    nia. }
  assert (2 ^ (dig N2 - 1) <= rne N2 (expo N2) * 2 ^ expo N2) as Hlo.
  { pose proof (rne_bounds N2 (expo N2) ltac:(lia)) as [Hr _].
    rewrite (pow2_split (expo N2) (dig N2 - 1)) in Hd2 |- * by lia.
    pose proof (pow2_pos (dig N2 - 1 - expo N2) ltac:(lia)).
    assert (2 ^ (dig N2 - 1 - expo N2) <= N2 / 2 ^ expo N2).
    { apply Z.div_le_lower_bound; [lia|]. lia. }
    nia. }
  assert (2 ^ dig N1 <= 2 ^ (dig N2 - 1)).
  { apply Z.pow_le_mono_r; [lia|]. lia. }
  lia.
Qed.

Lemma Rnd_ge_floor N : 0 < N -> N / 2 ^ expo N * 2 ^ expo N <= Rnd N.
Proof.
  intros. unfold Rnd. pose proof (rne_bounds N (expo N) (expo_nonneg N)).
  pose proof (pow2_pos (expo N) (expo_nonneg N)). nia.
Qed.

Lemma Rnd_exact m t : 0 < m -> 0 <= t -> expo (m * 2 ^ t) = t -> Rnd (m * 2 ^ t) = m * 2 ^ t.
Proof.
  intros Hm Ht Htt. unfold Rnd. rewrite Htt. pose proof (pow2_pos t Ht).
  rewrite rne_exact; [|done|].
  - by rewrite Z.div_mul by lia.
  - apply Z.mod_mul. lia.
Qed.



Lemma fexp_eq e : fexp prec emax e = Z.max (e - 53) (-1074).
Proof. reflexivity. Qed.

Lemma digits_dig m : Zpos (digits2_pos m) = dig (Zpos m).
Proof.
  unfold dig. replace (digits2_pos m) with (Pos.size m).
  2:{ induction m; simpl; congruence. }
  destruct m; simpl; lia.
Qed.





Lemma canon_fexp m e : canon m e <-> fexp prec emax (dig (Zpos m) + e) = e.
Proof. unfold canon. rewrite fexp_eq. lia. Qed.

Lemma bounded_canon m e :
  bounded prec emax m e = true <-> canon m e /\ e <= 971.
Proof.
  unfold bounded, canonical_mantissa. rewrite andb_true_iff, Z.eqb_eq, Z.leb_le.
  rewrite digits_dig, <- canon_fexp. reflexivity.
Qed.

Lemma val_pos m e : -1074 <= e -> 0 < val m e.
Proof. intros. unfold val. pose proof (pow2_pos (e + 1074)). nia. Qed.

Lemma dig_val m e : -1074 <= e -> dig (val m e) = dig (Zpos m) + e + 1074.
Proof. intros. unfold val. rewrite dig_shift; lia. Qed.

Lemma expo_val m e : canon m e -> expo (val m e) = e + 1074.
Proof.
  intros (H1 & H2 & H3). unfold expo. rewrite dig_val by done. unfold prec. lia.
Qed.

Lemma Rnd_val m e : canon m e -> Rnd (val m e) = val m e.
Proof.
  intros Hc. pose proof (expo_val m e Hc) as Ht. destruct Hc as (H1 & _).
  unfold val in *. apply Rnd_exact; lia.
Qed.

Lemma val_bounds m e :
  -1074 <= e -> 2 ^ (dig (Zpos m) - 1 + e + 1074) <= val m e < 2 ^ (dig (Zpos m) + e + 1074).
Proof.
  intros He. pose proof (dig_bounds (val m e) (val_pos m e He)) as H.
  rewrite dig_val in H by done.
  replace (dig (Z.pos m) - 1 + e + 1074) with (dig (Z.pos m) + e + 1074 - 1) by lia. done.
Qed.

Lemma val_lex m1 e1 m2 e2 :
  canon m1 e1 -> canon m2 e2 ->
  (val m1 e1 <= val m2 e2 <-> (e1 < e2 \/ (e1 = e2 /\ (m1 <= m2)%positive))).
Proof.
  intros (A1 & A2 & A3) (B1 & B2 & B3).
  pose proof (val_bounds m1 e1 A1) as [L1 U1].
  pose proof (val_bounds m2 e2 B1) as [L2 U2].
  pose proof (dig_pos (Zpos m1) ltac:(lia)). pose proof (dig_pos (Zpos m2) ltac:(lia)).
  destruct (Z.lt_trichotomy e1 e2) as [Hlt|[Heq|Hgt]].
  - split; [by left|]. intros _.
    assert (2 ^ (dig (Z.pos m1) + e1 + 1074) <= 2 ^ (dig (Z.pos m2) - 1 + e2 + 1074)).
    { apply Z.pow_le_mono_r; lia. }
    lia.
  - subst e2. unfold val. pose proof (pow2_pos (e1 + 1074)).
    split.
    + intros Hv. right. split; [done|]. assert (Zpos m1 <= Zpos m2) by nia. lia.
    + intros [?|[_ Hm]]; [lia|]. assert (Zpos m1 <= Zpos m2) by lia. nia.
  - split; [|lia]. intros Hv. exfalso.
    assert (2 ^ (dig (Z.pos m2) + e2 + 1074) <= 2 ^ (dig (Z.pos m1) - 1 + e1 + 1074)).
    { apply Z.pow_le_mono_r; lia. }
    lia.
Qed.

Lemma val_inj m1 e1 m2 e2 :
  canon m1 e1 -> canon m2 e2 -> val m1 e1 = val m2 e2 -> m1 = m2 /\ e1 = e2.
Proof.
  intros H1 H2 Hv.
  pose proof (proj1 (val_lex m1 e1 m2 e2 H1 H2) ltac:(lia)).
  pose proof (proj1 (val_lex m2 e2 m1 e1 H2 H1) ltac:(lia)).
  lia.
Qed.

Lemma val_lt_tope m e : canon m e -> e <= 971 -> val m e < tope.
Proof.
  intros (A1 & A2 & A3) He. pose proof (val_bounds m e A1) as [_ U].
  assert (2 ^ (dig (Z.pos m) + e + 1074) <= tope) by (apply Z.pow_le_mono_r; lia).
  lia.
Qed.

Lemma val_ge_tope m e : canon m e -> 971 < e -> tope <= val m e.
Proof.
  intros (A1 & A2 & A3) He. pose proof (val_bounds m e A1) as [L _].
  assert (tope <= 2 ^ (dig (Z.pos m) - 1 + e + 1074)) by (apply Z.pow_le_mono_r; lia).
  lia.
Qed.



Lemma iter_pos_nat {A} (f : A -> A) p x :
  SpecFloat.iter_pos f p x = Nat.iter (Pos.to_nat p) f x.
Proof.
  revert x. induction p as [p IH|p IH|]; intros x; cbn [SpecFloat.iter_pos].
  - rewrite !IH. rewrite Pos2Nat.inj_xI.
    replace (S (2 * Pos.to_nat p)) with (Pos.to_nat p + (Pos.to_nat p + 1))%nat by lia.
    rewrite !Nat.iter_add. done.
  - rewrite !IH. rewrite Pos2Nat.inj_xO.
    replace (2 * Pos.to_nat p)%nat with (Pos.to_nat p + Pos.to_nat p)%nat by lia.
    by rewrite Nat.iter_add.
  - done.
Qed.



Lemma shr_1_spec m r s R P :
  0 <= m -> 0 < P -> 0 <= R < P -> locrel r s R P ->
  let mrs := shr_1 (Build_shr_record m r s) in
  0 <= shr_m mrs /\
  exists b, (b = 0 \/ b = 1) /\ m = 2 * shr_m mrs + b /\
  locrel (shr_r mrs) (shr_s mrs) (R + b * P) (2 * P).
Proof.
  intros Hm HP HR Hl. unfold locrel in *.
  destruct m as [|[p|p|]|p]; try lia;
    cbn [shr_1 shr_m shr_r shr_s]; (split; [lia|]).
  - exists 0. split; [by left|]. split; [lia|]. destruct r, s; cbn [orb] in *; lia.
  - exists 1. split; [by right|]. split; [lia|]. destruct r, s; cbn [orb] in *; lia.
  - exists 0. split; [by left|]. split; [lia|]. destruct r, s; cbn [orb] in *; lia.
  - exists 1. split; [by right|]. split; [lia|]. destruct r, s; cbn [orb] in *; lia.
Qed.

Lemma shr_iter_spec M k :
  0 <= M ->
  let mrs := Nat.iter k shr_1 (Build_shr_record M false false) in
  0 <= shr_m mrs /\
  exists R, M = shr_m mrs * 2 ^ Z.of_nat k + R /\ 0 <= R < 2 ^ Z.of_nat k /\
            locrel (shr_r mrs) (shr_s mrs) R (2 ^ Z.of_nat k).
Proof.
  intros HM. induction k as [|k IH].
  - simpl. split; [done|]. exists 0. simpl. lia.
  - cbv zeta in IH |- *. rewrite Nat.iter_succ.
    destruct (Nat.iter k shr_1 _) as [m r s] eqn:E. simpl in IH.
    destruct IH as (Hm & R & HMeq & HR & Hl).
    pose proof (pow2_pos (Z.of_nat k) ltac:(lia)) as HP.
    destruct (shr_1_spec m r s R (2 ^ Z.of_nat k) Hm HP HR Hl) as (Hm' & b & Hb & Hmb & Hl').
    cbv zeta in *. split; [done|].
    set (m' := shr_m (shr_1 {| shr_m := m; shr_r := r; shr_s := s |})) in *.
    exists (R + b * 2 ^ Z.of_nat k).
    rewrite Nat2Z.inj_succ, Z.pow_succ_r by lia.
    split_and!; [nia|nia|nia|done].
Qed.

Lemma rne_of_locrel M q r s R n :
  0 <= n -> M = q * 2 ^ n + R -> 0 <= R < 2 ^ n -> locrel r s R (2 ^ n) ->
  round_nearest_even q (loc_of_shr_record (Build_shr_record q r s)) = rne M n.
Proof.
  intros Hn HM HR Hl. pose proof (pow2_pos n Hn) as HP.
  assert (M / 2 ^ n = q) as Hq.
  { symmetry. apply (Z.div_unique M (2 ^ n) q R); lia. }
  assert (M mod 2 ^ n = R) as Hr.
  { symmetry. apply (Z.mod_unique M (2 ^ n) q R); lia. }
  unfold rne. rewrite Hq, Hr.
  unfold locrel in Hl.
  destruct r, s; cbn [round_nearest_even loc_of_shr_record];
    destruct (Z.compare_spec (2 * R) (2 ^ n)); try lia; done.
Qed.

Lemma shr_round M e n :
  0 <= M -> 0 <= n ->
  let '(mrs, e') := shr (Build_shr_record M false false) e n in
  e' = e + n /\ 0 <= shr_m mrs /\
  shr_m mrs = M / 2 ^ n /\
  round_nearest_even (shr_m mrs) (loc_of_shr_record mrs) = rne M n.
Proof.
  intros HM Hn. destruct n as [|p|p]; [| |lia].
  - cbn [shr shr_m loc_of_shr_record round_nearest_even].
    change (2 ^ 0) with 1. rewrite Z.div_1_r. split_and!; [lia|lia|done|].
    unfold rne. change (2 ^ 0) with 1. by rewrite Z.mod_1_r, Z.div_1_r.
  - unfold shr. rewrite iter_pos_nat.
    pose proof (shr_iter_spec M (Pos.to_nat p) HM) as H. cbv zeta in H.
    destruct (Nat.iter _ shr_1 _) as [m r s]. simpl in H.
    rewrite positive_nat_Z in H. destruct H as (Hm & R & HMeq & HR & Hl).
    pose proof (pow2_pos (Zpos p) ltac:(lia)) as HP.
    split_and!; [done|done| |].
    + simpl. apply (Z.div_unique M (2 ^ Zpos p) m R); lia.
    + simpl. by apply (rne_of_locrel M m r s R (Zpos p)).
Qed.

Lemma rne_scale M a n :
  0 <= a -> 0 <= n -> rne (M * 2 ^ a) (n + a) = rne M n.
Proof.
  intros Ha Hn. pose proof (pow2_pos a Ha). pose proof (pow2_pos n Hn).
  unfold rne. rewrite Z.pow_add_r by lia.
  rewrite Z.div_mul_cancel_r by lia.
  rewrite Z.mul_mod_distr_r by lia.
  replace (2 * (M mod 2 ^ n * 2 ^ a)) with (2 * (M mod 2 ^ n) * 2 ^ a) by lia.
  destruct (Z.compare_spec (2 * (M mod 2 ^ n) * 2 ^ a) (2 ^ n * 2 ^ a));
    destruct (Z.compare_spec (2 * (M mod 2 ^ n)) (2 ^ n)); try nia; done.
Qed.

Lemma Zdigits2_dig z : 0 < z -> Zdigits2 z = dig z.
Proof. destruct z; try lia. intros _. simpl. apply digits_dig. Qed.

Lemma dig_div M n :
  0 < M -> 0 <= n <= dig M - 1 -> 0 < M / 2 ^ n /\ dig (M / 2 ^ n) = dig M - n.
Proof.
  intros HM Hn. pose proof (dig_bounds M HM) as [L U].
  pose proof (pow2_pos n ltac:(lia)) as HP.
  rewrite (pow2_split n (dig M - 1)) in L by lia.
  rewrite (pow2_split n (dig M)) in U by lia.
  pose proof (pow2_pos (dig M - 1 - n) ltac:(lia)).
  assert (2 ^ (dig M - 1 - n) <= M / 2 ^ n) by (apply Z.div_le_lower_bound; lia).
  assert (M / 2 ^ n < 2 ^ (dig M - n)) by (apply Z.div_lt_upper_bound; lia).
  split; [lia|]. apply dig_unique; [lia|].
  replace (dig M - n - 1) with (dig M - 1 - n) by lia. lia.
Qed.

Lemma binary_round_aux_spec M e :
  -1074 <= e -> e <= fexp prec emax (dig (Zpos M) + e) ->
  let N := Zpos M * 2 ^ (e + 1074) in
  let R := binary_round_aux prec emax false (Zpos M) e loc_Exact in
  (R = S754_infinity false /\ tope <= Rnd N) \/
  (exists mf ef, R = S754_finite false mf ef /\ canon mf ef /\ ef <= 971 /\
                 val mf ef = Rnd N).
Proof.
  intros He Hfe N R. subst R. unfold binary_round_aux, shr_fexp.
  rewrite (Zdigits2_dig (Zpos M)) by lia.
  cbn [shr_record_of_loc].
  set (dM := dig (Zpos M)) in *.
  set (e1 := fexp prec emax (dM + e)) in *.
  pose proof (dig_pos (Zpos M) ltac:(lia)) as HdM. fold dM in HdM.
  assert (e1 = Z.max (dM + e - 53) (-1074)) as He1 by (subst e1; apply fexp_eq).
  pose proof (shr_round (Zpos M) e (e1 - e) ltac:(lia) ltac:(lia)) as Hs.
  destruct (shr _ e (e1 - e)) as [mrs e'].
  destruct Hs as (-> & _ & Hq & Hmr).
  set (q := shr_m mrs) in *.
  set (mr := round_nearest_even q (loc_of_shr_record mrs)) in *.
  replace (e + (e1 - e)) with e1 by lia.
  destruct (dig_div (Zpos M) (e1 - e) ltac:(lia) ltac:(fold dM; lia)) as [Hqpos Hdq].
  rewrite <- Hq in Hqpos, Hdq. fold dM in Hdq.
  pose proof (rne_bounds (Zpos M) (e1 - e) ltac:(lia)) as Hb.
  rewrite <- Hmr, <- Hq in Hb.
  pose proof (dig_bounds q Hqpos) as [Lq Uq].
  assert (0 < mr) as Hmrpos by lia.
  pose proof (dig_bounds mr Hmrpos) as [Lmr Umr].
  assert (dig q <= dig mr) as Hd1 by (apply dig_mono; lia).
  assert (dig mr <= dig q + 1) as Hd2.
  { destruct (Z_lt_le_dec mr (2 ^ dig q)) as [Hlt|Hge].
    - assert (dig mr = dig q); [|lia]. apply dig_unique; [pose proof (dig_pos q); lia|lia].
    - assert (mr = 2 ^ dig q) by lia.
      assert (dig mr = dig q + 1); [|lia].
      apply dig_unique; [pose proof (dig_pos q); lia|].
      replace (dig q + 1 - 1) with (dig q) by lia.
      rewrite Z.pow_add_r by (pose proof (dig_pos q); lia). lia. }
  rewrite (Zdigits2_dig mr) by done. cbn [shr_record_of_loc].
  set (e2 := fexp prec emax (dig mr + e1)) in *.
  assert (e2 = Z.max (dig mr + e1 - 53) (-1074)) as He2 by (subst e2; apply fexp_eq).
  assert (0 <= e2 - e1 <= 1) as Hn2 by lia.
  pose proof (shr_round mr e1 (e2 - e1) ltac:(lia) ltac:(lia)) as Hs2.
  destruct (shr _ e1 (e2 - e1)) as [mrs2 e''].
  destruct Hs2 as (-> & _ & Hm2 & _).
  replace (e1 + (e2 - e1)) with e2 by lia.
  assert (e2 - e1 <= dig mr - 1) as Hn2' by (pose proof (dig_pos q); lia).
  destruct (dig_div mr (e2 - e1) Hmrpos ltac:(lia)) as [Hm2pos Hdm2].
  rewrite <- Hm2 in Hm2pos, Hdm2.
  (* value *)
  assert (shr_m mrs2 * 2 ^ (e2 + 1074) = mr * 2 ^ (e1 + 1074)) as Hval.
  { rewrite Hm2. destruct (Z.eq_dec (e2 - e1) 0) as [H0|H1].
    - rewrite H0. change (2 ^ 0) with 1. rewrite Z.div_1_r. f_equal. f_equal. lia.
    - assert (e2 = e1 + 1) as -> by lia.
      replace (e1 + 1 - e1) with 1 by lia. change (2 ^ 1) with 2.
      assert (dig mr = dig q + 1) by lia.
      assert (mr = 2 ^ dig q).
      { assert (2 ^ (dig mr - 1) = 2 ^ dig q) by (f_equal; lia). lia. }
      assert (mr = 2 * 2 ^ (dig q - 1)) as Hmr2.
      { rewrite <- Z.pow_succ_r by (pose proof (dig_pos q); lia).
        replace (Z.succ (dig q - 1)) with (dig q) by lia. done. }
      rewrite Hmr2 at 1. rewrite (Z.mul_comm 2), Z.div_mul by lia.
      replace (e1 + 1 + 1074) with (Z.succ (e1 + 1074)) by lia.
      rewrite Z.pow_succ_r by lia. lia. }
  assert (Rnd N = mr * 2 ^ (e1 + 1074)) as HRnd.
  { unfold Rnd. assert (expo N = e1 + 1074) as ->.
    { unfold expo, N. rewrite dig_shift by lia. fold dM. unfold prec. lia. }
    f_equal. unfold N. replace (e1 + 1074) with ((e1 - e) + (e + 1074)) by lia.
    rewrite rne_scale by lia. done. }
  destruct (shr_m mrs2) as [|mf|mf] eqn:Emf; [lia| |lia].
  assert (canon mf e2) as Hc.
  { apply canon_fexp. rewrite Hdm2.
    replace (dig mr - (e2 - e1) + e2) with (dig mr + e1) by lia. done. }
  destruct (Z.leb_spec e2 (emax - prec)) as [Hle|Hgt]; unfold emax, prec in *.
  - right. exists mf, e2. split_and!; [done|done|lia|]. unfold val. lia.
  - left. split; [done|]. rewrite HRnd, <- Hval.
    pose proof (val_ge_tope mf e2 Hc ltac:(lia)). unfold val in *. lia.
Qed.

Lemma pos_iter_xO M d : Zpos (Pos.iter xO M d) = Zpos M * 2 ^ Zpos d.
Proof.
  induction d as [|d IH] using Pos.peano_ind.
  - simpl. lia.
  - rewrite Pos.iter_succ, Pos2Z.inj_xO, IH, Pos2Z.inj_succ, Z.pow_succ_r by lia. lia.
Qed.

Lemma shl_align_spec M e t :
  snd (shl_align M e t) = Z.min e t /\
  Zpos (fst (shl_align M e t)) = Zpos M * 2 ^ (e - Z.min e t).
Proof.
  unfold shl_align. destruct (t - e) as [|d|d] eqn:E; cbn [fst snd].
  - split; [lia|]. replace (e - Z.min e t) with 0 by lia. simpl. lia.
  - split; [lia|]. replace (e - Z.min e t) with 0 by lia. simpl. lia.
  - split; [lia|]. rewrite pos_iter_xO. f_equal. f_equal. lia.
Qed.

Lemma binary_round_spec M e :
  -1074 <= e ->
  let N := Zpos M * 2 ^ (e + 1074) in
  let R := binary_round prec emax false M e in
  (R = S754_infinity false /\ tope <= Rnd N) \/
  (exists mf ef, R = S754_finite false mf ef /\ canon mf ef /\ ef <= 971 /\
                 val mf ef = Rnd N).
Proof.
  intros He N R. subst R. unfold binary_round. rewrite digits_dig.
  pose proof (shl_align_spec M e (fexp prec emax (dig (Zpos M) + e))) as [H1 H2].
  destruct (shl_align M e _) as [mz ez]. cbn [fst snd] in *.
  pose proof (fexp_eq (dig (Z.pos M) + e)) as Hf.
  assert (dig (Zpos mz) + ez = dig (Zpos M) + e) as Hd.
  { rewrite H2, dig_shift by lia. lia. }
  assert (N = Zpos mz * 2 ^ (ez + 1074)) as ->.
  { unfold N. rewrite H2, <- Z.mul_assoc, <- Z.pow_add_r by lia. f_equal. f_equal. lia. }
  apply binary_round_aux_spec; [lia|]. rewrite Hd. lia.
Qed.

Lemma canon_ge m e : canon m e -> -1074 <= e.
Proof. by intros (? & _). Qed.

Lemma SFadd_fin mx ex my ey :
  canon mx ex -> canon my ey ->
  let N := val mx ex + val my ey in
  let R := SFadd prec emax (S754_finite false mx ex) (S754_finite false my ey) in
  (R = S754_infinity false /\ tope <= Rnd N) \/
  (exists mf ef, R = S754_finite false mf ef /\ canon mf ef /\ ef <= 971 /\
                 val mf ef = Rnd N).
Proof.
  intros Hx Hy N R. subst R. unfold SFadd. cbn [cond_Zopp].
  pose proof (canon_ge _ _ Hx). pose proof (canon_ge _ _ Hy).
  pose proof (shl_align_spec mx ex (Z.min ex ey)) as [_ Hx2].
  pose proof (shl_align_spec my ey (Z.min ex ey)) as [_ Hy2].
  set (a := fst (shl_align mx ex (Z.min ex ey))) in *.
  set (b := fst (shl_align my ey (Z.min ex ey))) in *.
  change (Z.pos a + Z.pos b) with (Zpos (a + b)). cbn [binary_normalize].
  assert (N = Zpos (a + b) * 2 ^ (Z.min ex ey + 1074)) as ->.
  { unfold N, val. rewrite Pos2Z.inj_add, Hx2, Hy2.
    rewrite Z.mul_add_distr_r, <- !Z.mul_assoc, <- !Z.pow_add_r by lia.
    f_equal; f_equal; f_equal; lia. }
  apply binary_round_spec. lia.
Qed.














Lemma nn_fin m e : nn (S754_finite false m e) <-> canon m e /\ e <= 971.
Proof. unfold nn. cbn [nnb]. apply bounded_canon. Qed.

Lemma valor_range x : nn x -> 0 <= valor x <= tope.
Proof.
  destruct x as [[]|[]| |[] m e]; try done; intros Hx; cbn [valor]; try lia.
  apply nn_fin in Hx as [Hc He].
  pose proof (val_lt_tope m e Hc He). pose proof (val_pos m e (canon_ge _ _ Hc)). lia.
Qed.

Lemma valor_tope x : nn x -> valor x = tope <-> x = inf.
Proof.
  destruct x as [[]|[]| |[] m e]; try done; intros Hx; cbn [valor]; split; try done; try lia.
  apply nn_fin in Hx as [Hc He]. pose proof (val_lt_tope m e Hc He). lia.
Qed.

Lemma valor_inj x y : nn x -> nn y -> valor x = valor y -> x = y.
Proof.
  intros Hx Hy. pose proof (valor_range x Hx). pose proof (valor_range y Hy).
  destruct x as [[]|[]| |[] mx ex]; try done;
  destruct y as [[]|[]| |[] my ey]; try done; cbn [valor]; intros Hv; try lia;
  try (apply nn_fin in Hx as [Hc He]);
  try (apply nn_fin in Hy as [Hc' He']).
  - pose proof (val_pos my ey (canon_ge _ _ Hc')). lia.
  - pose proof (val_lt_tope my ey Hc' He'). lia.
  - pose proof (val_pos mx ex (canon_ge _ _ Hc)). lia.
  - pose proof (val_lt_tope mx ex Hc He). lia.
  - destruct (val_inj mx ex my ey Hc Hc' Hv) as [-> ->]. done.
Qed.

Lemma SFcompare_valor x y :
  nn x -> nn y -> SFcompare x y = Some (valor x ?= valor y).
Proof.
  intros Hx Hy.
  destruct x as [[]|[]| |[] mx ex]; try done;
  destruct y as [[]|[]| |[] my ey]; try done; cbn [valor SFcompare];
  try (apply nn_fin in Hx as [Hc He]);
  try (apply nn_fin in Hy as [Hc' He']).
  - pose proof (val_pos my ey (canon_ge _ _ Hc')). f_equal. symmetry. by apply Z.compare_lt_iff.
  - pose proof (val_lt_tope my ey Hc' He'). f_equal. symmetry. by apply Z.compare_gt_iff.
  - pose proof (val_pos mx ex (canon_ge _ _ Hc)). f_equal. symmetry. by apply Z.compare_gt_iff.
  - pose proof (val_lt_tope mx ex Hc He). f_equal. symmetry. by apply Z.compare_lt_iff.
  - f_equal. pose proof (val_lex mx ex my ey Hc Hc') as L1.
    pose proof (val_lex my ey mx ex Hc' Hc) as L2.
    destruct (Z.compare_spec ex ey) as [->|Hlt|Hgt].
    + rewrite Pos.compare_cont_spec. cbn [Pos.switch_Eq].
      destruct (Pos.compare_spec mx my) as [->|Hm|Hm]; symmetry.
      * by apply Z.compare_eq_iff.
      * apply Z.compare_lt_iff. assert (~ val my ey <= val mx ey); [|lia].
        rewrite L2. lia.
      * apply Z.compare_gt_iff. assert (~ val mx ey <= val my ey); [|lia].
        rewrite L1. lia.
    + symmetry. apply Z.compare_lt_iff. assert (~ val my ey <= val mx ex); [|lia].
      rewrite L2. lia.
    + symmetry. apply Z.compare_gt_iff. assert (~ val mx ex <= val my ey); [|lia].
      rewrite L1. lia.
Qed.

Lemma SFltb_valor x y : nn x -> nn y -> SFltb x y = (valor x <? valor y).
Proof.
  intros Hx Hy. unfold SFltb. rewrite SFcompare_valor by done. unfold Z.ltb.
  by destruct (valor x ?= valor y).
Qed.

Lemma SFleb_valor x y : nn x -> nn y -> SFleb x y = (valor x <=? valor y).
Proof.
  intros Hx Hy. unfold SFleb. rewrite SFcompare_valor by done. unfold Z.leb.
  by destruct (valor x ?= valor y).
Qed.

Lemma SFeqb_valor x y : nn x -> nn y -> SFeqb x y = (valor x =? valor y).
Proof.
  intros Hx Hy. unfold SFeqb. rewrite SFcompare_valor by done.
  destruct (Z.compare_spec (valor x) (valor y)); symmetry; [by apply Z.eqb_eq|apply Z.eqb_neq; lia..].
Qed.

Lemma peso_ok_cases w :
  peso_ok w = true -> (exists s, w = S754_zero s) \/ nn w.
Proof.
  unfold peso_ok. rewrite andb_true_iff. intros [Hv Hle].
  destruct w as [s|[]| |[] m e]; try done; eauto.
Qed.

Lemma peso_ok_valor w : peso_ok w = true -> 0 <= valor w <= tope.
Proof.
  intros [[s ->]|Hw]%peso_ok_cases; [pose proof tope_pos; simpl; lia|by apply valor_range].
Qed.

Lemma suma_valor_le a b : suma_valor a b <= tope.
Proof.
  pose proof tope_pos. unfold suma_valor.
  destruct (_ || _); [lia|]. destruct (_ =? 0); lia.
Qed.

Lemma suma_valor_tope_l b : suma_valor tope b = tope.
Proof. unfold suma_valor. by rewrite Z.eqb_refl. Qed.

Lemma suma_valor_tope_r a : suma_valor a tope = tope.
Proof. unfold suma_valor. rewrite Z.eqb_refl. by rewrite orb_true_r. Qed.

Lemma suma_valor_fin a b :
  0 <= a < tope -> 0 <= b < tope -> 0 < a + b ->
  suma_valor a b = Z.min tope (Rnd (a + b)).
Proof.
  intros Ha Hb Hab. unfold suma_valor.
  destruct (Z.eqb_spec a tope); [lia|].
  destruct (Z.eqb_spec b tope); [lia|]. cbn [orb].
  destruct (Z.eqb_spec (a + b) 0); [lia|]. done.
Qed.

Lemma suma_valor_00 : suma_valor 0 0 = 0.
Proof.
  pose proof tope_pos. unfold suma_valor.
  destruct (Z.eqb_spec 0 tope); [lia|]. done.
Qed.

Lemma suma_spec x w :
  nn x -> peso_ok w = true -> nn (suma x w) /\ valor (suma x w) = suma_valor (valor x) (valor w).
Proof.
  intros Hx Hw.
  destruct x as [[]|[]| |[] mx ex]; try done.
  - (* +0 *)
    destruct (peso_ok_cases w Hw) as [[s ->]|Hnw].
    { destruct s; done. }
    destruct w as [[]|[]| |[] my ey]; try done. cbn [suma SFadd valor].
    split; [done|]. apply nn_fin in Hnw as [Hc He].
    pose proof (val_lt_tope my ey Hc He). pose proof (val_pos my ey (canon_ge _ _ Hc)).
    rewrite suma_valor_fin by lia. rewrite Z.add_0_l, Rnd_val by done. lia.
  - (* inf *)
    destruct (peso_ok_cases w Hw) as [[s ->]|Hnw]; [done|].
    destruct w as [[]|[]| |[] my ey]; try done.
  - (* finite *)
    apply nn_fin in Hx as [Hc He].
    pose proof (val_lt_tope mx ex Hc He). pose proof (val_pos mx ex (canon_ge _ _ Hc)).
    destruct (peso_ok_cases w Hw) as [[s ->]|Hnw].
    { cbn [suma SFadd valor]. split; [by apply nn_fin|].
      rewrite suma_valor_fin by lia. rewrite Z.add_0_r, Rnd_val by done. lia. }
    destruct w as [[]|[]| |[] my ey]; try done.
    { cbn [suma SFadd valor]. split; [by apply nn_fin|].
      rewrite suma_valor_fin by lia. rewrite Z.add_0_r, Rnd_val by done. lia. }
    { cbn [suma SFadd valor]. split; [done|]. by rewrite suma_valor_tope_r. }
    apply nn_fin in Hnw as [Hc' He'].
    pose proof (val_lt_tope my ey Hc' He'). pose proof (val_pos my ey (canon_ge _ _ Hc')).
    cbn [valor]. rewrite suma_valor_fin by lia.
    destruct (SFadd_fin mx ex my ey Hc Hc') as [[HR HT]|(mf & ef & HR & Hcf & Hef & Hvf)];
      unfold suma; rewrite HR.
    + split; [done|]. cbn [valor]. lia.
    + split; [by apply nn_fin|]. cbn [valor]. pose proof (val_lt_tope mf ef Hcf Hef). lia.
Qed.

Lemma Rnd_nonneg N : 0 < N -> 0 <= Rnd N.
Proof.
  intros HN. pose proof (Rnd_ge_floor N HN).
  pose proof (pow2_pos (expo N) (expo_nonneg _)).
  assert (0 <= N / 2 ^ expo N) by (apply Z.div_pos; lia). nia.
Qed.

Lemma suma_nn x w : nn x -> peso_ok w = true -> nn (suma x w).
Proof. intros. by apply suma_spec. Qed.

Lemma Rnd_valor x : nn x -> x <> inf -> 0 < valor x -> Rnd (valor x) = valor x.
Proof.
  destruct x as [[]|[]| |[] mx ex]; try done; cbn [valor]; try lia.
  intros [Hc _]%nn_fin _ _. by apply Rnd_val.
Qed.

Lemma suma_valor_ge_0 a b : 0 <= a -> 0 <= b -> 0 <= suma_valor a b.
Proof.
  intros Ha Hb. pose proof tope_pos. unfold suma_valor. destruct (_ || _); [lia|].
  destruct (Z.eqb_spec (a + b) 0); [lia|].
  pose proof (Rnd_nonneg (a + b) ltac:(lia)). lia.
Qed.

Lemma suma_ge x w : nn x -> peso_ok w = true -> valor x <= valor (suma x w).
Proof.
  intros Hx Hw. destruct (suma_spec x w Hx Hw) as [_ ->].
  pose proof (valor_range x Hx). pose proof (peso_ok_valor w Hw).
  destruct (Z.eq_dec (valor x) tope) as [->|]; [rewrite suma_valor_tope_l; lia|].
  destruct (Z.eq_dec (valor w) tope) as [->|]; [rewrite suma_valor_tope_r; lia|].
  destruct (Z.eq_dec (valor x) 0) as [->|]; [apply suma_valor_ge_0; lia|].
  rewrite suma_valor_fin by lia.
  assert (x <> inf) by (intros ->; done).
  pose proof (Rnd_mono (valor x) (valor x + valor w) ltac:(lia)).
  rewrite (Rnd_valor x) in * by (done || lia). lia.
Qed.

Lemma suma_mono a b w :
  nn a -> nn b -> peso_ok w = true -> valor a <= valor b -> valor (suma a w) <= valor (suma b w).
Proof.
  intros Ha Hb Hw Hab.
  destruct (suma_spec a w Ha Hw) as [_ ->]. destruct (suma_spec b w Hb Hw) as [_ ->].
  pose proof (valor_range a Ha). pose proof (valor_range b Hb). pose proof (peso_ok_valor w Hw).
  pose proof (suma_valor_le (valor a) (valor w)).
  destruct (Z.eq_dec (valor b) tope) as [->|]; [rewrite suma_valor_tope_l; lia|].
  destruct (Z.eq_dec (valor w) tope) as [->|]; [rewrite !suma_valor_tope_r; lia|].
  destruct (Z.eq_dec (valor a + valor w) 0) as [Hz|].
  { assert (valor a = 0) as -> by lia. assert (valor w = 0) as -> by lia.
    rewrite suma_valor_00. apply suma_valor_ge_0; lia. }
  rewrite !suma_valor_fin by lia.
  pose proof (Rnd_mono (valor a + valor w) (valor b + valor w) ltac:(lia)). lia.
Qed.

Lemma nn_cero : nn cero.
Proof. done. Qed.

Lemma nn_inf : nn inf.
Proof. done. Qed.

Lemma valor_cero : valor cero = 0.
Proof. done. Qed.

Lemma valor_inf : valor inf = tope.
Proof. done. Qed.

Lemma SFltb_true_iff x y : nn x -> nn y -> SFltb x y = true <-> valor x < valor y.
Proof. intros. rewrite SFltb_valor by done. apply Z.ltb_lt. Qed.

Lemma SFltb_false_iff x y : nn x -> nn y -> SFltb x y = false <-> valor y <= valor x.
Proof. intros. rewrite SFltb_valor by done. apply Z.ltb_ge. Qed.

Lemma SFleb_true_iff x y : nn x -> nn y -> SFleb x y = true <-> valor x <= valor y.
Proof. intros. rewrite SFleb_valor by done. apply Z.leb_le. Qed.

Lemma SFeqb_inf_false d : nn d -> SFeqb d inf = false <-> valor d < tope.
Proof.
  intros Hd. rewrite SFeqb_valor by done. rewrite valor_inf, Z.eqb_neq.
  pose proof (valor_range d Hd). lia.
Qed.

(** Lo que resulta menor que algo no es el infinito, sea cual sea el
    [float]. *)
Lemma SFltb_no_inf a b : SFltb a b = true -> SFeqb a inf = false.
Proof.
  destruct a as [sa|[]| |sa ma ea]; try done; destruct b as [sb|[]| |sb mb eb]; try done;
    destruct sa; done.
Qed.

Lemma suma_fin_r x w :
  nn x -> peso_ok w = true -> valor (suma x w) < tope -> valor x < tope.
Proof. intros Hx Hw. pose proof (suma_ge x w Hx Hw). lia. Qed.

(** ** Hechos sobre las comparaciones *)

Lemma tupla_ltb_true (a b : spec_float * string) :
  nn a.1 → nn b.1 → tupla_ltb a b = true → valor a.1 <= valor b.1.
Proof.
  intros Ha Hb. unfold tupla_ltb. rewrite SFeqb_valor, SFltb_valor by done.
  destruct (Z.eqb_spec (valor a.1) (valor b.1)); [lia|]. intros ?%Z.ltb_lt. lia.
Qed.

Lemma tupla_ltb_false (a b : spec_float * string) :
  nn a.1 → nn b.1 → tupla_ltb a b = false → valor b.1 <= valor a.1.
Proof.
  intros Ha Hb. unfold tupla_ltb. rewrite SFeqb_valor, SFltb_valor by done.
  destruct (Z.eqb_spec (valor a.1) (valor b.1)); [lia|]. intros ?%Z.ltb_ge. lia.
Qed.

(** ** La cola de prioridad *)

Lemma heappop_None heap : heappop heap = None → heap = [].
Proof.
  destruct heap as [|e l]; [done|]. simpl.
  destruct (heappop l) as [[m r]|]; [|done]. by destruct (tupla_ltb m e).
Qed.

Lemma heappop_Some heap e r :
  heappop heap = Some (e, r) →
  heap ≡ₚ e :: r ∧
  ((∀ e', e' ∈ heap → nn e'.1) → ∀ e', e' ∈ r → valor e.1 <= valor e'.1).
Proof.
  revert e r. induction heap as [|e0 l IH]; intros e r; [done|]. simpl.
  destruct (heappop l) as [[m r0]|] eqn:El.
  - destruct (IH _ _ eq_refl) as [Hp Hmin].
    assert (m ∈ l) as Hml by (rewrite Hp; by left).
    destruct (tupla_ltb m e0) eqn:Et; intros [= <- <-].
    + split.
      * rewrite Hp. apply Permutation_swap.
      * intros Hnn e' [->|He']%elem_of_cons.
        -- apply tupla_ltb_true; [apply Hnn; by right|apply Hnn; by left|done].
        -- apply Hmin; [|done]. intros e'' He''. apply Hnn. by right.
    + split; [done|]. intros Hnn e' He'. rewrite Hp in He'.
      apply tupla_ltb_false in Et; [|apply Hnn; by right|apply Hnn; by left].
      apply elem_of_cons in He' as [->|He']; [done|].
      etrans; [exact Et|]. apply Hmin; [|done].
      intros e'' He''. apply Hnn. by right.
  - intros [= <- <-]. apply heappop_None in El as ->. split; [done|].
    intros _ e' He'. by apply elem_of_nil in He'.
Qed.

(** ** El invariante básico *)

Arguments relajar : simpl never.
Arguments heappop : simpl never.

Lemma finita_insert (dist : dist_t) v a x :
  SFeqb a inf = false → finita dist x → finita (<[v := a]> dist) x.
Proof.
  intros Ha (d & Hd & Hf). destruct (decide (v = x)) as [->|Hne].
  - exists a. split; [apply lookup_insert_eq|done].
  - exists d. by rewrite lookup_insert_ne.
Qed.

Lemma relajar_finita u k (dist : dist_t) (prev : prev_t) heap vp dist' prev' heap' :
  relajar u k (dist, prev, heap) vp = Ok (dist', prev', heap') →
  ∀ x, finita dist x → finita dist' x.
Proof.
  destruct vp as [v w]. unfold relajar. destruct (dist !! v) as [dv|]; [|done].
  destruct (SFltb _ dv) eqn:El; intros [= <- <- <-] x Hx; [|done].
  apply finita_insert; [by eapply SFltb_no_inf|done].
Qed.

Lemma relajar_basico grafo origen u k (dist : dist_t) (prev : prev_t) heap vp
    dist' prev' heap' :
  finita dist u →
  inv_basico grafo origen dist prev heap →
  relajar u k (dist, prev, heap) vp = Ok (dist', prev', heap') →
  inv_basico grafo origen dist' prev' heap'.
Proof.
  intros Hu [Hdd Hdp Ho Hc Hh]. destruct vp as [v w]. unfold relajar.
  destruct (dist !! v) as [dv|] eqn:Ev; [|done].
  destruct (SFltb _ dv) eqn:El; intros [= <- <- <-]; [|done].
  apply SFltb_no_inf in El.
  assert (is_Some (prev !! v)) as Hpv.
  { apply elem_of_dom. rewrite Hdp, <- Hdd. apply elem_of_dom. eauto. }
  split.
  - rewrite <- Hdd. apply dom_insert_lookup_L. eauto.
  - rewrite <- Hdp. by apply dom_insert_lookup_L.
  - by apply finita_insert.
  - intros x Hx. destruct (decide (v = x)) as [->|Hne].
    + right. exists u. rewrite lookup_insert_eq. split; [done|].
      by apply finita_insert.
    + destruct Hx as (d & Hd & Hf). rewrite lookup_insert_ne in Hd by done.
      destruct (Hc x) as [->|(u0 & Hp0 & Hf0)]; [by exists d|by left|].
      right. exists u0. rewrite lookup_insert_ne by done.
      split; [done|]. by apply finita_insert.
  - intros k' v' [[= -> ->]|Hin]%elem_of_cons.
    + eexists. split; [apply lookup_insert_eq|done].
    + apply finita_insert; [done|]. by eapply Hh.
Qed.

Lemma foldM_relajar_basico grafo origen u k l :
  ∀ (dist : dist_t) (prev : prev_t) heap dist' prev' heap',
  finita dist u →
  inv_basico grafo origen dist prev heap →
  foldM (relajar u k) (dist, prev, heap) l = Ok (dist', prev', heap') →
  inv_basico grafo origen dist' prev' heap'.
Proof.
  induction l as [|vp l IH]; intros dist prev heap dist' prev' heap' Hu Hinv; simpl.
  - by intros [= <- <- <-].
  - destruct (relajar u k (dist, prev, heap) vp) as [[[d1 p1] h1]| |] eqn:E; [|done..].
    simpl. apply IH.
    + by eapply relajar_finita.
    + by eapply relajar_basico.
Qed.

Lemma inv_basico_heap grafo origen (dist : dist_t) (prev : prev_t) heap heap' :
  (∀ e, e ∈ heap' → e ∈ heap) →
  inv_basico grafo origen dist prev heap →
  inv_basico grafo origen dist prev heap'.
Proof. intros Hsub [Hdd Hdp Ho Hc Hh]. split; eauto. Qed.

Lemma Dijkstra_bucle_basico grafo origen n :
  ∀ (dist : dist_t) (prev : prev_t) heap dist' prev',
  inv_basico grafo origen dist prev heap →
  Dijkstra_bucle n grafo (dist, prev, heap) = Ok (dist', prev') →
  inv_basico grafo origen dist' prev' [].
Proof.
  induction n as [|n IH]; intros dist prev heap dist' prev' Hinv; simpl.
  - destruct (heappop heap) as [[[k u] h0]|] eqn:Ep; [done|].
    intros [= <- <-]. by apply heappop_None in Ep as ->.
  - destruct (heappop heap) as [[[k u] h0]|] eqn:Ep.
    2:{ intros [= <- <-]. by apply heappop_None in Ep as ->. }
    apply heappop_Some in Ep as [Hp _].
    assert (∀ e, e ∈ h0 → e ∈ heap) as Hsub.
    { intros e He. rewrite Hp. by right. }
    assert (finita dist u) as Hu.
    { eapply (ib_heap _ _ _ _ _ Hinv k). rewrite Hp. by left. }
    destruct (dist !! u) as [du|]; [|done].
    destruct (SFltb du k).
    { apply IH. by eapply inv_basico_heap. }
    destruct (grafo !! u) as [ady|]; [|done].
    destruct (foldM _ _ _) as [[[d1 p1] h1]| |] eqn:Ef; [|done..].
    simpl. apply IH. eapply foldM_relajar_basico; [exact Hu| |exact Ef].
    by eapply inv_basico_heap.
Qed.

Lemma inv_basico_inicial (grafo : grafo_t) origen :
  is_Some (grafo !! origen) →
  inv_basico grafo origen
    (<[origen := cero]> ((λ _, inf) <$> grafo))
    ((λ _, None) <$> grafo) [(cero, origen)].
Proof.
  intros Ho. split.
  - rewrite dom_insert_lookup_L, dom_fmap_L; [done|].
    rewrite lookup_fmap. by apply fmap_is_Some.
  - apply dom_fmap_L.
  - eexists. split; [apply lookup_insert_eq|done].
  - intros v (d & Hd & Hf). destruct (decide (origen = v)) as [->|Hne]; [by left|].
    rewrite lookup_insert_ne, lookup_fmap in Hd by done.
    destruct (grafo !! v); by simplify_eq/=.
  - intros k v [[= -> ->]|[]%elem_of_nil]%elem_of_cons.
    eexists. split; [apply lookup_insert_eq|done].
Qed.

(** Lo que [Dijkstra] devuelve, cuando devuelve algo, sobre cualquier grafo. *)
Lemma Dijkstra_basico n (grafo : grafo_t) origen dist prev :
  Dijkstra n grafo origen = Ok (dist, prev) →
  dom dist = dom grafo ∧ dom prev = dom grafo ∧
  (is_Some (grafo !! origen) → inv_basico grafo origen dist prev []).
Proof.
  unfold Dijkstra. destruct (grafo !! origen) as [ady|] eqn:Eo.
  - intros H. eapply Dijkstra_bucle_basico in H; [|apply inv_basico_inicial; eauto].
    destruct H; eauto 10 using Build_inv_basico.
  - intros [= <- <-]. rewrite !dom_fmap_L. split_and!; [done..|].
    by intros [? ?].
Qed.

(** ** El efecto de relajar todas las aristas de un nodo *)


Lemma relajar_spec u k (dist : dist_t) (prev : prev_t) heap v w :
  is_Some (dist !! v) →
  relajar u k (dist, prev, heap) (v, w) =
  Ok (if mejora dist k v w
      then (<[v := suma k w]> dist, <[v := Some u]> prev,
            (suma k w, v) :: heap)
      else (dist, prev, heap)).
Proof.
  intros [dv Hdv]. unfold relajar, mejora. rewrite Hdv.
  by destruct (SFltb _ dv).
Qed.

Lemma mejora_ext (dist dist' : dist_t) k v w :
  dist' !! v = dist !! v → mejora dist' k v w = mejora dist k v w.
Proof. unfold mejora. by intros ->. Qed.

Lemma foldM_relajar_spec u k l :
  ∀ (dist : dist_t) (prev : prev_t) heap,
  NoDup l.*1 →
  (∀ v w, (v, w) ∈ l → is_Some (dist !! v)) →
  ∃ dist' prev' heap',
    foldM (relajar u k) (dist, prev, heap) l = Ok (dist', prev', heap') ∧
    (∀ v w, (v, w) ∈ l → mejora dist k v w = true →
       dist' !! v = Some (suma k w) ∧ prev' !! v = Some (Some u)) ∧
    (∀ v, (∀ w, (v, w) ∈ l → mejora dist k v w = false) →
       dist' !! v = dist !! v ∧ prev' !! v = prev !! v) ∧
    (∀ e, e ∈ heap' ↔
       e ∈ heap ∨ ∃ v w, (v, w) ∈ l ∧ mejora dist k v w = true ∧ e = (suma k w, v)) ∧
    (length heap' ≤ length heap + length l)%nat ∧
    ((∀ v w, (v, w) ∈ l → mejora dist k v w = false) → heap' = heap).
Proof.
  induction l as [|[v0 w0] l IH]; intros dist prev heap Hnd Hkeys.
  - exists dist, prev, heap. split_and!; try done.
    + intros v w []%elem_of_nil.
    + intros e. split; [by left|]. intros [?|(v & w & []%elem_of_nil & _)]. done.
    + simpl. lia.
  - apply NoDup_cons in Hnd as [Hv0 Hnd]. cbn [foldM].
    rewrite relajar_spec by (apply (Hkeys v0 w0); by left).
    set (st1 := if mejora dist k v0 w0 then _ else _).
    destruct st1 as [[d1 p1] h1] eqn:Est1. cbn [res_bind].
    assert (∀ v, v ≠ v0 → d1 !! v = dist !! v ∧ p1 !! v = prev !! v) as Hne.
    { intros v Hv. subst st1. destruct (mejora dist k v0 w0); simplify_eq; [|done].
      by rewrite !lookup_insert_ne. }
    assert (∀ v w, (v, w) ∈ l → v ≠ v0) as Hl.
    { intros v w Hin ->. apply Hv0. apply list_elem_of_fmap. by exists (v0, w). }
    destruct (IH d1 p1 h1 Hnd) as (dist' & prev' & heap' & Hf & Himp & Hsame & Hheap & Hlen & Hid).
    { intros v w Hin. rewrite (proj1 (Hne v (Hl _ _ Hin))). apply (Hkeys v w). by right. }
    assert (∀ v w, (v, w) ∈ l → mejora d1 k v w = mejora dist k v w) as Hmej.
    { intros v w Hin. apply mejora_ext. by apply Hne, (Hl v w). }
    assert (dist' !! v0 = d1 !! v0 ∧ prev' !! v0 = p1 !! v0) as Hv0'.
    { apply Hsame. intros w Hin. by destruct (Hl _ _ Hin). }
    exists dist', prev', heap'. split_and!; [done|..].
    + intros v w [[= -> ->]|Hin]%elem_of_cons Hm.
      * destruct Hv0' as [-> ->]. subst st1. rewrite Hm in Est1. simplify_eq.
        by rewrite !lookup_insert_eq.
      * apply Himp; [done|]. by rewrite Hmej.
    + intros v Hv. destruct (decide (v = v0)) as [->|Hvne].
      * destruct Hv0' as [-> ->]. subst st1.
        rewrite (Hv w0) in Est1 by (by left). by simplify_eq.
      * destruct (Hne v Hvne) as [<- <-]. apply Hsame.
        intros w Hin. rewrite Hmej by done. apply Hv. by right.
    + intros e. rewrite Hheap. split.
      * intros [He|(v & w & Hin & Hm & ->)].
        -- subst st1. destruct (mejora dist k v0 w0) eqn:Em; simplify_eq; [|by left].
           apply elem_of_cons in He as [->|He]; [|by left].
           right. exists v0, w0. split_and!; [by left|done..].
        -- right. exists v, w. rewrite <- Hmej by done. split_and!; [by right|done..].
      * intros [He|(v & w & [[= -> ->]|Hin]%elem_of_cons & Hm & ->)].
        -- left. subst st1. destruct (mejora dist k v0 w0); simplify_eq; [by right|done].
        -- left. subst st1. rewrite Hm in Est1. simplify_eq. by left.
        -- right. exists v, w. by rewrite Hmej.
    + assert (length h1 ≤ S (length heap))%nat.
      { subst st1. destruct (mejora dist k v0 w0); simplify_eq; simpl; lia. }
      simpl. lia.
    + intros Hno. rewrite Hid.
      * subst st1. rewrite (Hno v0 w0) in Est1 by (by left). by simplify_eq.
      * intros v w Hin. rewrite Hmej by done. apply Hno. by right.
Qed.

Lemma relajar_todo u k (ady : gmap string spec_float) (dist : dist_t) (prev : prev_t) heap :
  (∀ v w, ady !! v = Some w → is_Some (dist !! v)) →
  ∃ dist' prev' heap',
    foldM (relajar u k) (dist, prev, heap) (map_to_list ady)
      = Ok (dist', prev', heap') ∧
    (∀ v,
       (∃ w, ady !! v = Some w ∧ mejora dist k v w = true ∧
             dist' !! v = Some (suma k w) ∧ prev' !! v = Some (Some u)) ∨
       ((∀ w, ady !! v = Some w → mejora dist k v w = false) ∧
        dist' !! v = dist !! v ∧ prev' !! v = prev !! v)) ∧
    (∀ e, e ∈ heap' ↔
       e ∈ heap ∨
       ∃ v w, ady !! v = Some w ∧ mejora dist k v w = true ∧ e = (suma k w, v)) ∧
    (length heap' ≤ length heap + size ady)%nat ∧
    ((∀ v w, ady !! v = Some w → mejora dist k v w = false) → heap' = heap).
Proof.
  intros Hkeys.
  destruct (foldM_relajar_spec u k (map_to_list ady) dist prev heap)
    as (dist' & prev' & heap' & Hf & Himp & Hsame & Hheap & Hlen & Hid).
  { apply NoDup_fst_map_to_list. }
  { intros v w Hin%elem_of_map_to_list. by eapply Hkeys. }
  exists dist', prev', heap'. split_and!; [done|..].
  - intros v. destruct (ady !! v) as [w|] eqn:Ev.
    + destruct (mejora dist k v w) eqn:Em.
      * left. exists w. split_and!; [done..| |]; by apply (Himp v w); [apply elem_of_map_to_list|].
      * right. split; [by intros ? [= <-]|].
        apply Hsame. intros w' Hin%elem_of_map_to_list. by simplify_eq.
    + right. split; [done|]. apply Hsame.
      intros w' Hin%elem_of_map_to_list. by simplify_eq.
  - intros e. rewrite Hheap. by setoid_rewrite elem_of_map_to_list.
  - by rewrite <- length_map_to_list.
  - intros Hno. apply Hid. intros v w Hin%elem_of_map_to_list. by apply Hno.
Qed.

(** ** Orden de las sumas *)

Lemma mejora_true_inv (dist : dist_t) k v w :
  mejora dist k v w = true →
  ∃ dv, dist !! v = Some dv ∧ SFltb (suma k w) dv = true.
Proof. unfold mejora. destruct (dist !! v) as [dv|]; [eauto|done]. Qed.

Lemma mejora_false_inv (dist : dist_t) k v w dv :
  dist !! v = Some dv → mejora dist k v w = false →
  SFltb (suma k w) dv = false.
Proof. unfold mejora. by intros ->. Qed.

Lemma no_mejora (dist : dist_t) k v w dv :
  nn k → peso_ok w = true → dist !! v = Some dv → nn dv →
  valor dv <= valor k → mejora dist k v w = false.
Proof.
  intros Hk Hw Hdv Hn Hle. unfold mejora. rewrite Hdv.
  apply SFltb_false_iff; [by apply suma_nn|done|].
  pose proof (suma_ge k w Hk Hw). lia.
Qed.

(** ** El invariante de Dijkstra con pesos no negativos *)

Lemma peso_Some (grafo : grafo_t) u v w :
  peso grafo u v = Some w ↔ ∃ ady, grafo !! u = Some ady ∧ ady !! v = Some w.
Proof.
  unfold peso. destruct (grafo !! u) as [ady|]; simpl.
  - split; [eauto|]. by intros (? & [= <-] & ?).
  - split; [done|]. by intros (? & ? & ?).
Qed.

(** Extraer una entrada caducada, o la de un nodo ya cerrado, conserva el
    invariante. *)
Lemma inv_pop grafo origen cerrados m (dist : dist_t) (prev : prev_t) heap k u h0 :
  inv_dijkstra grafo origen cerrados m dist prev heap →
  heap ≡ₚ (k, u) :: h0 →
  (∀ e', e' ∈ h0 → valor k <= valor e'.1) →
  (u ∈ cerrados ∨ ∃ d, dist !! u = Some d ∧ valor d < valor k) →
  inv_dijkstra grafo origen cerrados k dist prev h0.
Proof.
  intros [Hb Hm Hnd Hs Hval Hheap Hpend Hcer Hprev Hord] Hp Hmin Hu.
  assert (∀ e, e ∈ h0 → e ∈ heap) as Hsub.
  { intros e He. rewrite Hp. by right. }
  destruct (Hheap k u) as (Hnk & Hmk & Hkf & _); [rewrite Hp; by left|].
  split; try done.
  - by eapply inv_basico_heap.
  - intros k' v Hin. destruct (Hheap k' v (Hsub _ Hin)) as (? & ? & ? & ?).
    split_and!; [done|apply (Hmin (k', v) Hin)|done..].
  - intros v d Hd Hf. destruct (Hpend v d Hd Hf) as [?|Hin]; [by left|].
    rewrite Hp in Hin. apply elem_of_cons in Hin as [[= -> ->]|Hin]; [|by right].
    destruct Hu as [?|(d' & Hd' & Hlt)]; [by left|].
    simplify_eq. lia.
  - intros v Hv. destruct (Hcer v Hv) as (d & Hd & Hdf & Hdm & Hx).
    exists d. split_and!; [done..|lia|done].
Qed.

(** Relajar las aristas de un nodo recién extraído y aún no cerrado. *)
Lemma inv_relajar grafo origen cerrados m (dist : dist_t) (prev : prev_t)
    heap k u h0 ady :
  grafo_cerrado grafo → pesos_no_negativos grafo →
  inv_dijkstra grafo origen cerrados m dist prev heap →
  heap ≡ₚ (k, u) :: h0 →
  (∀ e', e' ∈ h0 → valor k <= valor e'.1) →
  dist !! u = Some k → u ∉ cerrados → grafo !! u = Some ady →
  ∃ dist' prev' heap',
    foldM (relajar u k) (dist, prev, h0) (map_to_list ady)
      = Ok (dist', prev', heap') ∧
    inv_dijkstra grafo origen (u :: cerrados) k dist' prev' heap' ∧
    (length heap' ≤ length h0 + size ady)%nat.
Proof.
  intros Hcl Hnn [Hb Hm Hnd [Hs Hps] Hval Hheap Hpend Hcer Hprev Hord] Hp Hmin Hdu Hu Hg.
  assert (∀ e, e ∈ h0 → e ∈ heap) as Hsub.
  { intros e He. rewrite Hp. by right. }
  destruct (Hheap k u) as (Hnk & Hmk & Hkf & _); [rewrite Hp; by left|].
  pose proof (valor_range k Hnk) as Hkr.
  assert (∀ v w, ady !! v = Some w → peso_ok w = true) as Hw.
  { intros v w Hv. exact (Hnn u ady Hg v w Hv). }
  assert (∀ v w, ady !! v = Some w →
          nn (suma k w) ∧ valor k <= valor (suma k w)) as Hsum.
  { intros v w Hv. split; [apply suma_nn|apply suma_ge]; eauto. }
  assert (∀ v w, ady !! v = Some w → is_Some (dist !! v)) as Hkeys.
  { intros v w Hv. apply elem_of_dom. rewrite (ib_dom_dist _ _ _ _ _ Hb).
    apply elem_of_dom. exact (Hcl u ady Hg v w Hv). }
  destruct (relajar_todo u k ady dist prev h0 Hkeys)
    as (dist' & prev' & heap' & Hf & Hcase & Hh' & Hlen & _).
  exists dist', prev', heap'. split_and!; [done| |done].
  assert (inv_basico grafo origen dist' prev' heap') as Hb'.
  { eapply foldM_relajar_basico; [|eapply inv_basico_heap; [exact Hsub|exact Hb]|exact Hf].
    exists k. split; [done|]. by apply SFeqb_inf_false. }
  assert (∀ v w, ady !! v = Some w → mejora dist k v w = true →
          ∃ dv, dist !! v = Some dv ∧ valor (suma k w) < valor dv) as Hmej.
  { intros v w Hv (dv & Hdv & Hlt)%mejora_true_inv. exists dv. split; [done|].
    apply SFltb_true_iff; [by eapply Hsum|by eapply Hval|done]. }
  assert (∀ v dv, dist !! v = Some dv → valor dv <= valor k →
          dist' !! v = dist !! v ∧ prev' !! v = prev !! v) as Hfix.
  { intros v dv Hdv Hle. destruct (Hcase v) as [(w & Hady & Hm' & _)|(_ & ? & ?)]; [|done].
    rewrite (no_mejora dist k v w dv) in Hm'; eauto. done. }
  assert (∀ v dv, dist !! v = Some dv →
          ∃ dv', dist' !! v = Some dv' ∧ valor dv' <= valor dv) as Hmono.
  { intros v dv Hdv. destruct (Hcase v) as [(w & Hady & Hm' & Hd' & _)|(_ & Hd' & _)].
    - destruct (Hmej v w Hady Hm') as (dv0 & Hdv0 & Hlt). simplify_eq.
      exists (suma k w). split; [done|lia].
    - exists dv. split; [congruence|lia]. }
  assert (∀ v, v ∈ cerrados → dist' !! v = dist !! v ∧ prev' !! v = prev !! v) as Hfixc.
  { intros v Hv. destruct (Hcer v Hv) as (d & Hd & _ & Hdm & _).
    apply (Hfix v d Hd). lia. }
  destruct (Hfix u k Hdu) as [Hdu' Hpu']; [lia|].
  split; try done.
  - by apply NoDup_cons.
  - destruct (Hfix origen cero Hs) as [-> ->]; [rewrite valor_cero; lia|done].
  - intros v d Hd. destruct (Hcase v) as [(w & Hady & Hm' & Hd' & _)|(_ & Hd' & _)].
    + simplify_eq. by eapply Hsum.
    + rewrite Hd' in Hd. by eapply Hval.
  - intros k' v Hin. apply Hh' in Hin as [Hin|(v' & w & Hady & Hm' & [= -> ->])].
    + destruct (Hheap k' v (Hsub _ Hin)) as (Hnk' & _ & Hkf' & d & Hd & Hdk).
      split_and!; [done|apply (Hmin (k', v) Hin)|done|].
      destruct (Hmono v d Hd) as (d' & Hd' & Hle).
      exists d'. split; [done|lia].
    + destruct (Hsum v' w Hady) as [Hns Hge].
      destruct (Hmej v' w Hady Hm') as (dv & Hdv & Hlt).
      pose proof (valor_range dv (Hval _ _ Hdv)).
      split_and!; [done..|lia|].
      destruct (Hcase v') as [(w' & Hady' & _ & Hd' & _)|(Hno & _)].
      * simplify_eq. exists (suma k w). split; [done|lia].
      * rewrite (Hno w Hady) in Hm'. done.
  - intros v d Hd Hdf. destruct (Hcase v) as [(w & Hady & Hm' & Hd' & _)|(_ & Hd' & _)].
    + right. apply Hh'. right. exists v, w. split_and!; [done..|]. congruence.
    + rewrite Hd' in Hd. destruct (Hpend v d Hd Hdf) as [?|Hin]; [left; by right|].
      rewrite Hp in Hin. apply elem_of_cons in Hin as [[= -> ->]|Hin]; [left; by left|].
      right. apply Hh'. by left.
  - intros v [->|Hv]%elem_of_cons.
    + exists k. split_and!; [congruence|done|lia|].
      intros x w (ady' & Hg' & Hx)%peso_Some. simplify_eq.
      destruct (Hcase x) as [(w' & Hady & _ & Hd' & _)|(Hno & Hd' & _)].
      * simplify_eq. exists (suma k w). split; [done|lia].
      * destruct (Hkeys x w Hx) as [dvx Hdvx].
        pose proof (mejora_false_inv dist k x w dvx Hdvx (Hno w Hx)) as Hle.
        apply SFltb_false_iff in Hle; [|by eapply Hsum|by eapply Hval].
        exists dvx. split; [congruence|done].
    + destruct (Hcer v Hv) as (d & Hd & Hdf & Hdm & Hx).
      exists d. split_and!.
      * destruct (Hfixc v Hv) as [-> _]. done.
      * done.
      * lia.
      * intros x w Hpw. destruct (Hx x w Hpw) as (dx & Hdx & Hle).
        destruct (Hmono x dx Hdx) as (dx' & Hdx' & Hle').
        exists dx'. split; [done|lia].
  - intros v u0 Hpv. destruct (Hcase v) as [(w & Hady & Hm' & Hd' & Hp')|(_ & Hd' & Hp')].
    + rewrite Hp' in Hpv. simplify_eq. split; [by left|].
      destruct (Hmej v w Hady Hm') as (dv & Hdv & Hlt).
      pose proof (valor_range dv (Hval _ _ Hdv)).
      exists w, k. split_and!; [|congruence|done|lia].
      apply peso_Some. eauto.
    + rewrite Hp' in Hpv.
      destruct (Hprev v u0 Hpv) as [Hu0 (w & d & Hpw & Hd0 & Hdv & Hdf)].
      split; [by right|]. exists w, d. split_and!; [done| |congruence|done].
      destruct (Hfixc u0 Hu0) as [-> _]. done.
  - intros l1 v l2 u0 Heq Hpv. destruct l1 as [|a l1]; simplify_eq/=.
    + rewrite Hpu' in Hpv. by destruct (Hprev _ _ Hpv).
    + destruct (Hfixc v) as [_ Hpv']; [apply elem_of_app; right; by left|].
      rewrite Hpv' in Hpv. by eapply Hord.
Qed.

(** ** Terminación: aristas que quedan por relajar *)



Lemma pendiente_nil (grafo : grafo_t) : pendiente grafo [] = num_aristas grafo.
Proof.
  unfold pendiente, num_aristas.
  induction (map_to_list grafo) as [|[u a] l IH]; [done|].
  cbn [fmap list_fmap sum_list_with sum_list]. rewrite IH. f_equal.
Qed.

Lemma coste_pendiente_otro cerrados u ua :
  ua.1 ≠ u → coste_pendiente (u :: cerrados) ua = coste_pendiente cerrados ua.
Proof.
  intros Hne. unfold coste_pendiente.
  destruct (decide (ua.1 ∈ cerrados)) as [Hin|Hnin].
  - rewrite decide_True; [done|by right].
  - rewrite decide_False; [done|]. by intros [?|?]%elem_of_cons.
Qed.

Lemma suma_pendiente_ajeno cerrados u (l : list (string * gmap string spec_float)) :
  u ∉ l.*1 →
  sum_list (coste_pendiente (u :: cerrados) <$> l)
  = sum_list (coste_pendiente cerrados <$> l).
Proof.
  induction l as [|ua l IH]; [done|]. intros Hu.
  apply not_elem_of_cons in Hu as [Hne Hu]. cbn [fmap list_fmap sum_list_with sum_list].
  fold (sum_list (coste_pendiente (u :: cerrados) <$> l)).
  fold (sum_list (coste_pendiente cerrados <$> l)).
  rewrite IH by done. by rewrite coste_pendiente_otro.
Qed.

Lemma suma_pendiente_cerrar cerrados u ady (l : list (string * gmap string spec_float)) :
  NoDup l.*1 → (u, ady) ∈ l → u ∉ cerrados →
  (sum_list (coste_pendiente (u :: cerrados) <$> l) + size ady
   = sum_list (coste_pendiente cerrados <$> l))%nat.
Proof.
  induction l as [|ua l IH]; intros Hnd Hin Hu; [by apply elem_of_nil in Hin|].
  apply NoDup_cons in Hnd as [Hua Hnd]. cbn [fmap list_fmap sum_list_with sum_list].
  fold (sum_list (coste_pendiente (u :: cerrados) <$> l)).
  fold (sum_list (coste_pendiente cerrados <$> l)).
  apply elem_of_cons in Hin as [<-|Hin].
  - rewrite suma_pendiente_ajeno by done. unfold coste_pendiente. simpl.
    rewrite decide_True by (by left). rewrite decide_False by done. lia.
  - rewrite coste_pendiente_otro.
    + rewrite <- (IH Hnd Hin Hu). lia.
    + intros Heq. apply Hua. rewrite Heq. apply list_elem_of_fmap. by exists (u, ady).
Qed.

Lemma pendiente_cerrar (grafo : grafo_t) cerrados u ady :
  grafo !! u = Some ady → u ∉ cerrados →
  (pendiente grafo (u :: cerrados) + size ady = pendiente grafo cerrados)%nat.
Proof.
  intros Hg Hu. apply suma_pendiente_cerrar; [|by apply elem_of_map_to_list|done].
  apply NoDup_fst_map_to_list.
Qed.

(** ** El bucle termina y conserva el invariante *)

Lemma Dijkstra_bucle_total grafo origen :
  grafo_cerrado grafo → pesos_no_negativos grafo →
  ∀ n cerrados m (dist : dist_t) (prev : prev_t) heap,
  inv_dijkstra grafo origen cerrados m dist prev heap →
  (length heap + pendiente grafo cerrados ≤ n)%nat →
  ∃ dist' prev' cerrados' m',
    Dijkstra_bucle n grafo (dist, prev, heap) = Ok (dist', prev') ∧
    inv_dijkstra grafo origen cerrados' m' dist' prev' [].
Proof.
  intros Hcl Hnn. induction n as [|n IH]; intros cerrados m dist prev heap Hinv Hn.
  - destruct heap; [|simpl in Hn; lia]. exists dist, prev, cerrados, m. by split.
  - cbn [Dijkstra_bucle].
    destruct (heappop heap) as [[[k u] h0]|] eqn:Ep.
    2:{ apply heappop_None in Ep as ->. exists dist, prev, cerrados, m. by split. }
    apply heappop_Some in Ep as [Hp Hmin0].
    assert (∀ e', e' ∈ h0 → valor k <= valor e'.1) as Hmin.
    { apply Hmin0. intros [k' v'] He'.
      by destruct (id_heap _ _ _ _ _ _ _ Hinv k' v' He'). }
    assert (length heap = S (length h0)) as Hlen by (by rewrite Hp).
    destruct (id_heap _ _ _ _ _ _ _ Hinv k u) as (Hnk & Hmk & Hkf & d & Hd & Hdk);
      [rewrite Hp; by left|].
    pose proof (id_nn _ _ _ _ _ _ _ Hinv u d Hd) as Hnd.
    rewrite Hd. destruct (SFltb d k) eqn:Elt.
    { apply SFltb_true_iff in Elt; [|done..].
      apply (IH cerrados k); [|lia].
      eapply inv_pop; [exact Hinv|exact Hp|exact Hmin|]. right. eauto. }
    apply SFltb_false_iff in Elt; [|done..].
    assert (d = k) as -> by (apply valor_inj; [done..|lia]).
    assert (is_Some (grafo !! u)) as [ady Hg].
    { apply elem_of_dom. rewrite <- (ib_dom_dist _ _ _ _ _ (id_basico _ _ _ _ _ _ _ Hinv)).
      apply elem_of_dom. eauto. }
    rewrite Hg. destruct (decide (u ∈ cerrados)) as [Hu|Hu].
    + destruct (relajar_todo u k ady dist prev h0)
        as (dist' & prev' & heap' & Hf & Hcase & _ & _ & Hid).
      { intros v w Hv. apply elem_of_dom.
        rewrite (ib_dom_dist _ _ _ _ _ (id_basico _ _ _ _ _ _ _ Hinv)).
        apply elem_of_dom. exact (Hcl u ady Hg v w Hv). }
      assert (∀ v w, ady !! v = Some w → mejora dist k v w = false) as Hno.
      { intros v w Hv.
        destruct (id_cerrados _ _ _ _ _ _ _ Hinv u Hu) as (d & Hd' & _ & _ & Hx).
        simplify_eq. destruct (Hx v w) as (dx & Hdx & Hle); [apply peso_Some; eauto|].
        unfold mejora. rewrite Hdx. apply SFltb_false_iff; [|by eapply id_nn|done].
        apply suma_nn; [done|]. exact (Hnn u ady Hg v w Hv). }
      rewrite Hf. cbn [res_bind]. rewrite (Hid Hno).
      assert (dist' = dist) as ->.
      { apply map_eq. intros v. destruct (Hcase v) as [(w & Hv & Hm & _)|(_ & ? & _)]; [|done].
        by rewrite (Hno v w Hv) in Hm. }
      assert (prev' = prev) as ->.
      { apply map_eq. intros v. destruct (Hcase v) as [(w & Hv & Hm & _)|(_ & _ & ?)]; [|done].
        by rewrite (Hno v w Hv) in Hm. }
      apply (IH cerrados k); [|lia].
      eapply inv_pop; [exact Hinv|exact Hp|exact Hmin|]. by left.
    + destruct (inv_relajar grafo origen cerrados m dist prev heap k u h0 ady)
        as (dist' & prev' & heap' & Hf & Hinv' & Hlen'); try done.
      rewrite Hf. cbn [res_bind]. apply (IH (u :: cerrados) k); [done|].
      pose proof (pendiente_cerrar grafo cerrados u ady Hg Hu). lia.
Qed.

Lemma inv_dijkstra_inicial (grafo : grafo_t) origen :
  is_Some (grafo !! origen) →
  inv_dijkstra grafo origen [] cero
    (<[origen := cero]> ((λ _, inf) <$> grafo))
    ((λ _, None) <$> grafo) [(cero, origen)].
Proof.
  intros Ho. pose proof tope_pos as Ht.
  split.
  - by apply inv_basico_inicial.
  - done.
  - apply NoDup_nil_2.
  - split; [apply lookup_insert_eq|]. rewrite lookup_fmap.
    destruct Ho as [? ->]. done.
  - intros v d. destruct (decide (origen = v)) as [->|Hne].
    + rewrite lookup_insert_eq. by intros [= <-].
    + rewrite lookup_insert_ne, lookup_fmap by done.
      destruct (grafo !! v); by intros [= <-].
  - intros k v [[= -> ->]|[]%elem_of_nil]%elem_of_cons.
    rewrite valor_cero. split_and!; [done|lia|lia|].
    exists cero. split; [apply lookup_insert_eq|rewrite valor_cero; lia].
  - intros v d Hd Hf. right. destruct (decide (origen = v)) as [->|Hne].
    + rewrite lookup_insert_eq in Hd. simplify_eq. by left.
    + rewrite lookup_insert_ne, lookup_fmap in Hd by done.
      destruct (grafo !! v); [|done]. simpl in Hd. injection Hd as <-.
      rewrite valor_inf in Hf. lia.
  - intros v []%elem_of_nil.
  - intros v u. rewrite lookup_fmap. by destruct (grafo !! v).
  - intros l1 v l2 u Heq. by destruct l1.
Qed.

(** Con combustible suficiente, [Dijkstra] devuelve un resultado que
    cumple el invariante con la cola vacía. *)
Lemma Dijkstra_total (grafo : grafo_t) origen n :
  grafo_cerrado grafo → pesos_no_negativos grafo →
  is_Some (grafo !! origen) →
  (S (num_aristas grafo) ≤ n)%nat →
  ∃ dist prev cerrados m,
    Dijkstra n grafo origen = Ok (dist, prev) ∧
    inv_dijkstra grafo origen cerrados m dist prev [].
Proof.
  intros Hcl Hnn Ho Hn. unfold Dijkstra. destruct Ho as [ady Ho]. rewrite Ho.
  eapply Dijkstra_bucle_total; [done..|apply inv_dijkstra_inicial; eauto|].
  rewrite pendiente_nil. simpl. lia.
Qed.

(** ** Caminos *)


Lemma distancia_camino_eq grafo p :
  distancia_camino grafo p = foldl (paso_camino grafo) (Some cero) (aristas_de p).
Proof. done. Qed.

Lemma aristas_de_cons2 x y r :
  aristas_de (x :: y :: r) = (x, y) :: aristas_de (y :: r).
Proof. done. Qed.

Lemma aristas_de_snoc p u v :
  last p = Some u → aristas_de (p ++ [v]) = aristas_de p ++ [(u, v)].
Proof.
  induction p as [|x [|y r] IH]; intros Hl; [done|by simplify_eq/=|].
  change ((x :: y :: r) ++ [v]) with (x :: y :: (r ++ [v])).
  rewrite !aristas_de_cons2. cbn [app]. f_equal. by apply IH.
Qed.

Lemma aristas_de_length p : length (aristas_de p) = (length p - 1)%nat.
Proof.
  unfold aristas_de. rewrite length_zip_with. destruct p; cbn [tail length]; lia.
Qed.

Lemma foldl_paso_camino_None grafo l : foldl (paso_camino grafo) None l = None.
Proof. by induction l. Qed.

Lemma foldl_paso_camino_aristas grafo l :
  ∀ acc d, foldl (paso_camino grafo) acc l = Some d →
  Forall (λ e, is_Some (peso grafo e.1 e.2)) l.
Proof.
  induction l as [|e l IH]; intros acc d Hf; [done|]. simpl in Hf.
  destruct (paso_camino grafo acc e) as [a|] eqn:Ee.
  - constructor; [|by eapply IH].
    unfold paso_camino in Ee. destruct acc; simpl in Ee; [|done].
    by destruct (peso grafo e.1 e.2).
  - by rewrite foldl_paso_camino_None in Hf.
Qed.

Lemma distancia_camino_aristas grafo p d :
  distancia_camino grafo p = Some d →
  Forall (λ e, is_Some (peso grafo e.1 e.2)) (aristas_de p).
Proof. apply foldl_paso_camino_aristas. Qed.

Lemma distancia_camino_snoc grafo p u v d w :
  last p = Some u → distancia_camino grafo p = Some d →
  peso grafo u v = Some w →
  distancia_camino grafo (p ++ [v]) = Some (suma d w).
Proof.
  intros Hl Hd Hw. rewrite distancia_camino_eq in *.
  rewrite (aristas_de_snoc p u v Hl), foldl_app, Hd. simpl.
  unfold paso_camino. simpl. by rewrite Hw.
Qed.

(** ** La reconstrucción sobre el resultado de Dijkstra *)

Lemma inv_dijkstra_finita grafo origen cerrados m (dist : dist_t) (prev : prev_t)
    heap v d :
  inv_dijkstra grafo origen cerrados m dist prev heap →
  dist !! v = Some d → (SFeqb d inf = false ↔ valor d < tope).
Proof. intros Hinv Hd. apply SFeqb_inf_false. by eapply id_nn. Qed.

Lemma caminar_cerrados grafo origen cerrados m (dist : dist_t) (prev : prev_t) :
  inv_dijkstra grafo origen cerrados m dist prev [] →
  ∀ l2 l1, cerrados = l1 ++ l2 →
  ∀ v, v ∈ l2 → ∀ n acc, (length l2 ≤ n)%nat →
  ∃ p d, dist !! v = Some d ∧
         caminar n prev origen (Some v) acc = Ok (p ++ acc) ∧
         head p = Some origen ∧ last p = Some v ∧
         distancia_camino grafo p = Some d.
Proof.
  intros Hinv. induction l2 as [|a l2 IH]; intros l1 Heq v Hv n acc Hn.
  { by apply elem_of_nil in Hv. }
  assert (cerrados = (l1 ++ [a]) ++ l2) as Heq' by (by rewrite <- app_assoc).
  destruct (decide (v ∈ l2)) as [Hin|Hnin].
  { apply (IH _ Heq' v Hin). simpl in Hn. lia. }
  apply elem_of_cons in Hv as [->|?]; [|done].
  destruct n as [|n]; [simpl in Hn; lia|]. simpl in Hn.
  destruct (id_cerrados _ _ _ _ _ _ _ Hinv a) as (d & Hd & Hdf & _).
  { rewrite Heq. apply elem_of_app. right. by left. }
  destruct (id_origen _ _ _ _ _ _ _ Hinv) as [Hs Hps].
  cbn [caminar]. destruct (decide (a = origen)) as [->|Hne].
  { exists [origen], cero. by split_and!. }
  destruct (ib_cadena _ _ _ _ _ (id_basico _ _ _ _ _ _ _ Hinv) a) as [?|(u & Hpu & _)];
    [exists d; split; [done|]; by eapply inv_dijkstra_finita|done|].
  rewrite Hpu.
  pose proof (id_orden _ _ _ _ _ _ _ Hinv l1 a l2 u Heq Hpu) as Hu.
  destruct (IH _ Heq' u Hu n (a :: acc)) as (p & du & Hdu & Hc & Hh & Hl & Hdc); [lia|].
  destruct (id_prev _ _ _ _ _ _ _ Hinv a u Hpu) as [_ (w & d0 & Hw & Hd0 & Hda & _)].
  assert (d0 = du) as -> by congruence.
  exists (p ++ [a]), (suma du w). split_and!.
  - done.
  - by rewrite <- app_assoc.
  - destruct p; [done|]. done.
  - by rewrite last_snoc.
  - by eapply distancia_camino_snoc.
Qed.

Lemma cerrados_length grafo origen cerrados m (dist : dist_t) (prev : prev_t) heap :
  inv_dijkstra grafo origen cerrados m dist prev heap →
  (length cerrados ≤ size grafo)%nat.
Proof.
  intros Hinv. rewrite <- (size_dom (D := gset string)).
  unfold size, set_size. simpl. apply submseteq_length, NoDup_submseteq.
  - by destruct Hinv.
  - intros v Hv. apply elem_of_elements.
    rewrite <- (ib_dom_dist _ _ _ _ _ (id_basico _ _ _ _ _ _ _ Hinv)).
    destruct (id_cerrados _ _ _ _ _ _ _ Hinv v Hv) as (d & Hd & _).
    apply elem_of_dom. eauto.
Qed.

Lemma reconstruir_camino_total grafo origen cerrados m (dist : dist_t) (prev : prev_t)
    n destino d :
  inv_dijkstra grafo origen cerrados m dist prev [] →
  dist !! destino = Some d → SFeqb d inf = false → (size grafo ≤ n)%nat →
  ∃ p, reconstruir_camino n prev origen destino = Ok p ∧
       head p = Some origen ∧ last p = Some destino ∧
       distancia_camino grafo p = Some d.
Proof.
  intros Hinv Hd Hdf Hn.
  pose proof (cerrados_length _ _ _ _ _ _ _ Hinv) as Hlen.
  apply (inv_dijkstra_finita _ _ _ _ _ _ _ _ _ Hinv Hd) in Hdf.
  destruct (id_pend _ _ _ _ _ _ _ Hinv destino d Hd Hdf) as [Hin|[]%elem_of_nil].
  destruct (caminar_cerrados _ _ _ _ _ _ Hinv cerrados [] eq_refl destino Hin n [])
    as (p & d' & Hd' & Hc & Hh & Hl & Hdc); [lia|].
  simplify_eq. rewrite app_nil_r in Hc. exists p. split; [|done].
  unfold reconstruir_camino.
  assert (is_Some (prev !! destino)) as [? ->].
  { apply elem_of_dom. rewrite (ib_dom_prev _ _ _ _ _ (id_basico _ _ _ _ _ _ _ Hinv)).
    rewrite <- (ib_dom_dist _ _ _ _ _ (id_basico _ _ _ _ _ _ _ Hinv)).
    apply elem_of_dom. eauto. }
  rewrite Hc. cbn [res_bind]. destruct p as [|c0 p]; [done|].
  simpl in Hh. simplify_eq. by rewrite decide_True.
Qed.

(** Sobre cualquier grafo: si la reconstrucción devuelve algo para un nodo
    de distancia finita, empieza en el origen. *)
Lemma caminar_basico grafo origen (dist : dist_t) (prev : prev_t) heap n :
  inv_basico grafo origen dist prev heap →
  ∀ v acc p, finita dist v →
  caminar n prev origen (Some v) acc = Ok p → head p = Some origen.
Proof.
  intros Hb. induction n as [|n IH]; intros v acc p Hv; [done|]. cbn [caminar].
  destruct (decide (v = origen)) as [->|Hne]; [by intros [= <-]|].
  destruct (ib_cadena _ _ _ _ _ Hb v Hv) as [?|(u & -> & Hu)]; [done|].
  by apply IH.
Qed.

Lemma reconstruir_camino_basico grafo origen (dist : dist_t) (prev : prev_t) heap
    n destino p :
  inv_basico grafo origen dist prev heap →
  finita dist destino →
  reconstruir_camino n prev origen destino = Ok p → head p = Some origen.
Proof.
  intros Hb Hd. unfold reconstruir_camino.
  assert (is_Some (prev !! destino)) as [? ->].
  { apply elem_of_dom. rewrite (ib_dom_prev _ _ _ _ _ Hb), <- (ib_dom_dist _ _ _ _ _ Hb).
    destruct Hd as (? & ? & _). apply elem_of_dom. eauto. }
  destruct (caminar n prev origen (Some destino) []) as [c| |] eqn:Ec; [|done..].
  cbn [res_bind]. apply (caminar_basico _ _ _ _ _ _ Hb) in Ec; [|done].
  destruct c as [|c0 c]; [done|]. simpl in Ec. simplify_eq.
  rewrite decide_True by done. by intros [= <-].
Qed.

(** ** La construcción del grafo *)

Lemma setdefault_vacio_lookup (grafo : grafo_t) n x :
  setdefault_vacio grafo n !! x =
  match grafo !! x with
  | Some a => Some a
  | None => if decide (x = n) then Some ∅ else None
  end.
Proof.
  unfold setdefault_vacio. destruct (grafo !! n) as [a|] eqn:En.
  - destruct (grafo !! x) as [b|] eqn:Ex; [done|].
    case_decide; [congruence|done].
  - destruct (decide (x = n)) as [->|Hne].
    + by rewrite lookup_insert_eq, En.
    + rewrite lookup_insert_ne by done. by destruct (grafo !! x).
Qed.

Lemma foldl_setdefault_lookup l :
  ∀ (grafo : grafo_t) x,
  foldl setdefault_vacio grafo l !! x =
  match grafo !! x with
  | Some a => Some a
  | None => if decide (x ∈ l) then Some ∅ else None
  end.
Proof.
  induction l as [|n l IH]; intros grafo x; cbn [foldl].
  - destruct (grafo !! x); [done|]. by rewrite decide_False by apply not_elem_of_nil.
  - rewrite IH, setdefault_vacio_lookup. destruct (grafo !! x) as [a|]; [done|].
    destruct (decide (x = n)) as [->|Hne].
    + by rewrite decide_True by (by left).
    + destruct (decide (x ∈ l)) as [Hin|Hnin].
      * by rewrite decide_True by (by right).
      * rewrite decide_False; [done|]. by intros [?|?]%elem_of_cons.
Qed.

Lemma agregar_ruta_lookup (grafo : grafo_t) nodos o d w x :
  (agregar_ruta (grafo, nodos) (o, d, w)).1 !! x =
  if decide (x = o) then Some (<[d := w]> (default ∅ (grafo !! o)))
  else grafo !! x.
Proof.
  cbn [agregar_ruta fst]. destruct (decide (x = o)) as [->|Hne].
  - rewrite lookup_insert_eq, setdefault_vacio_lookup.
    destruct (grafo !! o); [done|]. by rewrite decide_True.
  - rewrite lookup_insert_ne, setdefault_vacio_lookup by done.
    destruct (grafo !! x); [done|]. by rewrite decide_False.
Qed.

Lemma agregar_ruta_nodos (grafo : grafo_t) nodos o d w :
  (agregar_ruta (grafo, nodos) (o, d, w)).2 = nodos ∪ {[o]} ∪ {[d]}.
Proof. done. Qed.

Lemma agregar_ruta_peso (grafo : grafo_t) nodos o d w u v w' :
  peso (agregar_ruta (grafo, nodos) (o, d, w)).1 u v = Some w' →
  peso grafo u v = Some w' ∨ (u, v, w') = (o, d, w).
Proof.
  unfold peso at 1. rewrite agregar_ruta_lookup.
  destruct (decide (u = o)) as [->|Hne]; [|by left]. simpl.
  destruct (decide (v = d)) as [->|Hne].
  - rewrite lookup_insert_eq. intros [= <-]. by right.
  - rewrite lookup_insert_ne by done. intros Hv. left. unfold peso.
    destruct (grafo !! o); [done|]. simpl in Hv. by rewrite lookup_empty in Hv.
Qed.

Lemma foldl_agregar_ruta rutas :
  ∀ (grafo : grafo_t) nodos,
  let r := foldl agregar_ruta (grafo, nodos) rutas in
  (∀ u v w, peso r.1 u v = Some w → peso grafo u v = Some w ∨ (u, v, w) ∈ rutas) ∧
  (∀ x, is_Some (r.1 !! x) →
        is_Some (grafo !! x) ∨ ∃ d w, (x, d, w) ∈ rutas) ∧
  nodos ⊆ r.2 ∧
  (∀ o d w, (o, d, w) ∈ rutas → o ∈ r.2 ∧ d ∈ r.2).
Proof.
  induction rutas as [|[[o d] w] rutas IH]; intros grafo nodos; cbn [foldl].
  - split_and!; try done; [by left|by left|].
    intros ??? []%elem_of_nil.
  - destruct (agregar_ruta (grafo, nodos) (o, d, w)) as [g1 n1] eqn:E1.
    destruct (IH g1 n1) as (Hpeso & Hkeys & Hsub & Hnod).
    assert (g1 = (agregar_ruta (grafo, nodos) (o, d, w)).1) as Hg1 by (by rewrite E1).
    assert (n1 = nodos ∪ {[o]} ∪ {[d]}) as Hn1.
    { by rewrite <- (agregar_ruta_nodos grafo nodos o d w), E1. }
    split_and!.
    + intros u v w' Hp. destruct (Hpeso u v w' Hp) as [Hp1|Hin]; [|right; by right].
      rewrite Hg1 in Hp1. apply agregar_ruta_peso in Hp1 as [?|[= -> -> ->]]; [by left|].
      right. by left.
    + intros x Hx. destruct (Hkeys x Hx) as [Hx1|(d' & w' & Hin)].
      * rewrite Hg1, agregar_ruta_lookup in Hx1.
        destruct (decide (x = o)) as [->|?]; [|by left].
        right. exists d, w. by left.
      * right. exists d', w'. by right.
    + intros x Hx. apply Hsub. rewrite Hn1, !elem_of_union. by do 2 left.
    + intros o' d' w' [[= -> -> ->]|Hin]%elem_of_cons; [|by eapply Hnod].
      split; apply Hsub; rewrite Hn1, !elem_of_union, !elem_of_singleton; auto.
Qed.

Lemma construir_grafo_lookup rutas x :
  construir_grafo rutas !! x =
  let r := foldl agregar_ruta (∅, ∅) rutas in
  match r.1 !! x with
  | Some a => Some a
  | None => if decide (x ∈ elements r.2) then Some ∅ else None
  end.
Proof.
  unfold construir_grafo.
  destruct (foldl agregar_ruta (∅, ∅) rutas) as [g nodos].
  apply foldl_setdefault_lookup.
Qed.

Lemma construir_grafo_peso rutas u v w :
  peso (construir_grafo rutas) u v = Some w → (u, v, w) ∈ rutas.
Proof.
  unfold peso at 1. rewrite construir_grafo_lookup. cbn zeta.
  destruct (foldl_agregar_ruta rutas ∅ ∅) as (Hpeso & _).
  destruct ((foldl agregar_ruta (∅, ∅) rutas).1 !! u) as [a|] eqn:Ea.
  - simpl. intros Hv. destruct (Hpeso u v w) as [Hp|?]; [|by apply peso_Some in Hp as (? & ? & ?)|done].
    unfold peso. by rewrite Ea.
  - case_decide; [|done]. simpl. by rewrite lookup_empty.
Qed.

Lemma construir_grafo_nodo rutas o d w :
  (o, d, w) ∈ rutas →
  is_Some (construir_grafo rutas !! o) ∧ is_Some (construir_grafo rutas !! d).
Proof.
  intros Hin. destruct (foldl_agregar_ruta rutas ∅ ∅) as (_ & _ & _ & Hnod).
  destruct (Hnod o d w Hin) as [Ho Hd].
  rewrite !construir_grafo_lookup. cbn zeta. split.
  - destruct (_ !! o); [done|]. by rewrite decide_True by (by apply elem_of_elements).
  - destruct (_ !! d); [done|]. by rewrite decide_True by (by apply elem_of_elements).
Qed.

Lemma construir_grafo_sumidero rutas x :
  is_Some (construir_grafo rutas !! x) →
  (∀ d w, (x, d, w) ∉ rutas) →
  construir_grafo rutas !! x = Some ∅.
Proof.
  rewrite construir_grafo_lookup. cbn zeta. intros Hx Hno.
  destruct (foldl_agregar_ruta rutas ∅ ∅) as (_ & Hkeys & _).
  destruct ((foldl agregar_ruta (∅, ∅) rutas).1 !! x) as [a|] eqn:Ea.
  - destruct (Hkeys x) as [[? Hx0]|(d & w & Hin)]; [by rewrite Ea| |].
    + by rewrite lookup_empty in Hx0.
    + by destruct (Hno d w).
  - by case_decide.
Qed.

Lemma construir_grafo_cerrado rutas : grafo_cerrado (construir_grafo rutas).
Proof.
  intros u ady Hu v w Hv.
  destruct (construir_grafo_nodo rutas u v w) as [_ ?]; [|done].
  apply construir_grafo_peso. apply peso_Some. eauto.
Qed.

Lemma construir_grafo_no_negativo rutas :
  rutas_no_negativas rutas → pesos_no_negativos (construir_grafo rutas).
Proof.
  intros Hnn u ady Hu v w Hv.
  assert ((u, v, w) ∈ rutas) as Hin.
  { apply construir_grafo_peso. apply peso_Some. eauto. }
  unfold rutas_no_negativas in Hnn. rewrite Forall_forall in Hnn.
  exact (Hnn _ Hin).
Qed.

(** ** El combustible sobrante no cambia el resultado *)

Lemma Dijkstra_bucle_mono grafo n :
  ∀ (st : estado) r n', Dijkstra_bucle n grafo st = Ok r → (n ≤ n')%nat →
  Dijkstra_bucle n' grafo st = Ok r.
Proof.
  induction n as [|n IH]; intros [[dist prev] heap] r n' Hr Hn.
  - cbn [Dijkstra_bucle] in Hr. destruct (heappop heap) as [[[k u] h0]|] eqn:Ep; [done|].
    destruct n'; cbn [Dijkstra_bucle]; by rewrite Ep.
  - destruct n' as [|n']; [lia|]. cbn [Dijkstra_bucle] in *.
    destruct (heappop heap) as [[[k u] h0]|]; [|done].
    destruct (dist !! u) as [du|]; [|done].
    destruct (SFltb du k); [apply IH; [done|lia]|].
    destruct (grafo !! u) as [ady|]; [|done].
    destruct (foldM _ _ _) as [st'| |]; [|done..]. cbn [res_bind] in *.
    apply IH; [done|lia].
Qed.

Lemma Dijkstra_mono grafo origen n n' r :
  Dijkstra n grafo origen = Ok r → (n ≤ n')%nat → Dijkstra n' grafo origen = Ok r.
Proof.
  unfold Dijkstra. destruct (grafo !! origen); [|done]. apply Dijkstra_bucle_mono.
Qed.

Lemma caminar_mono (prev : prev_t) origen n :
  ∀ u acc r n', caminar n prev origen u acc = Ok r → (n ≤ n')%nat →
  caminar n' prev origen u acc = Ok r.
Proof.
  induction n as [|n IH]; intros [u|] acc r n' Hr Hn; try (by destruct n').
  destruct n' as [|n']; [lia|]. cbn [caminar] in *.
  destruct (decide (u = origen)); [done|].
  destruct (prev !! u) as [p|]; [|done]. apply IH; [done|lia].
Qed.

Lemma reconstruir_camino_mono (prev : prev_t) origen destino n n' r :
  reconstruir_camino n prev origen destino = Ok r → (n ≤ n')%nat →
  reconstruir_camino n' prev origen destino = Ok r.
Proof.
  unfold reconstruir_camino. destruct (prev !! destino); [|done].
  destruct (caminar n prev origen (Some destino) []) as [c| |] eqn:Ec; [|done..].
  intros Hr Hn. by rewrite (caminar_mono _ _ _ _ _ _ _ Ec Hn).
Qed.

Lemma procesar_envio_mono grafo e n n' r :
  procesar_envio n grafo e = Ok r → (n ≤ n')%nat →
  procesar_envio n' grafo e = Ok r.
Proof.
  destruct e as [[id o] d]. unfold procesar_envio.
  destruct (Dijkstra n grafo o) as [[dist prev]| |] eqn:Ed; [|done..].
  intros Hr Hn. rewrite (Dijkstra_mono _ _ _ _ _ Ed Hn). cbn [res_bind] in *.
  destruct (grafo !! o); [|done].
  destruct (dist !! d) as [x|]; [|done].
  destruct (SFeqb x inf); [done|].
  destruct (reconstruir_camino n prev o d) as [c| |] eqn:Ec; [|done..].
  by rewrite (reconstruir_camino_mono _ _ _ _ _ _ Ec Hn).
Qed.

Lemma procesar_envios_mono grafo envios n n' rs :
  procesar_envios n grafo envios = Ok rs → (n ≤ n')%nat →
  procesar_envios n' grafo envios = Ok rs.
Proof.
  unfold procesar_envios. revert rs.
  induction envios as [|e envios IH]; intros rs Hr Hn; [done|]. cbn [mapM] in *.
  destruct (procesar_envio n grafo e) as [r| |] eqn:Er; [|done..].
  rewrite (procesar_envio_mono _ _ _ _ _ Er Hn). cbn [res_bind] in *.
  destruct (mapM (procesar_envio n grafo) envios) as [rs'| |]; [|done..].
  by rewrite (IH rs').
Qed.

(** ** Recorridos con error *)

Lemma mapM_Forall2 {A B} (f : A → res B) (P : A → B → Prop) l :
  (∀ a, a ∈ l → ∃ b, f a = Ok b ∧ P a b) →
  ∃ bs, mapM f l = Ok bs ∧ Forall2 P l bs.
Proof.
  induction l as [|a l IH]; intros Hf.
  - exists []. by split.
  - destruct (Hf a) as (b & Hb & HP); [by left|].
    destruct IH as (bs & Hbs & HF); [intros a' Ha'; apply Hf; by right|].
    exists (b :: bs). cbn [mapM]. rewrite Hb. cbn [res_bind]. rewrite Hbs.
    split; [done|by constructor].
Qed.

Lemma mapM_Ok_inv {A B} (f : A → res B) l bs :
  mapM f l = Ok bs → Forall2 (λ a b, f a = Ok b) l bs.
Proof.
  revert bs. induction l as [|a l IH]; intros bs; cbn [mapM].
  - intros [= <-]. constructor.
  - destruct (f a) as [b| |] eqn:Eb; [|done..]. cbn [res_bind].
    destruct (mapM f l) as [bs'| |]; [|done..]. intros [= <-].
    constructor; [done|by apply IH].
Qed.

(** ** Un envío *)

Lemma combustible_dijkstra grafo n :
  (combustible grafo ≤ n)%nat → (S (num_aristas grafo) ≤ n)%nat.
Proof. unfold combustible. lia. Qed.

Lemma combustible_camino grafo n :
  (combustible grafo ≤ n)%nat → (size grafo ≤ n)%nat.
Proof. unfold combustible. lia. Qed.

Lemma Dijkstra_devuelve (grafo : grafo_t) origen n :
  grafo_cerrado grafo → pesos_no_negativos grafo →
  (combustible grafo ≤ n)%nat →
  ∃ dist prev, Dijkstra n grafo origen = Ok (dist, prev).
Proof.
  intros Hcl Hnn Hn. destruct (grafo !! origen) as [ady|] eqn:Eo.
  - destruct (Dijkstra_total grafo origen n) as (dist & prev & _ & _ & Hd & _);
      eauto using combustible_dijkstra.
  - unfold Dijkstra. rewrite Eo. eauto.
Qed.

Lemma reconstruir_camino_mismo (prev : prev_t) origen n :
  is_Some (prev !! origen) → (1 ≤ n)%nat →
  reconstruir_camino n prev origen origen = Ok [origen].
Proof.
  intros [p Hp] Hn. unfold reconstruir_camino. rewrite Hp.
  destruct n as [|n]; [lia|]. cbn [caminar].
  rewrite decide_True by done. cbn [res_bind]. by rewrite decide_True.
Qed.



Lemma procesar_envio_total (grafo : grafo_t) n e :
  grafo_cerrado grafo → pesos_no_negativos grafo →
  (combustible grafo ≤ n)%nat →
  ∃ r, procesar_envio n grafo e = Ok r ∧ mismo_envio e r ∧
       (estado_de r = RESOLVED → camino_valido grafo r).
Proof.
  intros Hcl Hnn Hn. destruct e as [[id o] d]. unfold procesar_envio.
  destruct (grafo !! o) as [ady|] eqn:Eo.
  2:{ unfold Dijkstra. rewrite Eo. cbn [res_bind]. eexists. by split_and!. }
  destruct (Dijkstra_total grafo o n) as (dist & prev & cerrados & m & Hd & Hinv);
    eauto using combustible_dijkstra.
  rewrite Hd. cbn [res_bind].
  destruct (dist !! d) as [x|] eqn:Ex; [|eexists; by split_and!].
  destruct (SFeqb x inf) eqn:Ef; [eexists; by split_and!|].
  destruct (reconstruir_camino_total grafo o cerrados m dist prev n d x)
    as (p & Hp & Hh & Hl & Hdc); eauto using combustible_camino.
  rewrite Hp. cbn [res_bind]. eexists. split_and!; try done.
  intros _. exists x, p. split_and!; try done.
  - apply aristas_de_length.
  - by eapply distancia_camino_aristas.
Qed.

Lemma procesar_envio_mismo (grafo : grafo_t) n id o :
  grafo_cerrado grafo → pesos_no_negativos grafo →
  (combustible grafo ≤ n)%nat → is_Some (grafo !! o) →
  procesar_envio n grafo (id, o, o)
  = Ok (Resultado id o o (Some cero) (Some [o]) (MsgRuta id o o cero [o])).
Proof.
  intros Hcl Hnn Hn Ho. unfold procesar_envio.
  destruct (Dijkstra_total grafo o n) as (dist & prev & cerrados & m & Hd & Hinv);
    eauto using combustible_dijkstra.
  rewrite Hd. cbn [res_bind]. destruct Ho as [ady ->].
  destruct (id_origen _ _ _ _ _ _ _ Hinv) as [-> Hp].
  change (SFeqb cero inf) with false. cbv iota.
  rewrite reconstruir_camino_mismo; [done|by rewrite Hp|].
  unfold combustible in Hn. lia.
Qed.

(** Sobre cualquier grafo: el resultado que se devuelva corresponde al
    envío y, si está resuelto, su camino empieza en el origen. *)
Lemma procesar_envio_basico (grafo : grafo_t) n e r :
  procesar_envio n grafo e = Ok r →
  mismo_envio e r ∧
  (estado_de r = RESOLVED →
   ∃ p, r_camino r = Some p ∧ head p = Some (r_origen r)).
Proof.
  destruct e as [[id o] d]. unfold procesar_envio.
  destruct (Dijkstra n grafo o) as [[dist prev]| |] eqn:Ed; [|done..].
  cbn [res_bind]. apply Dijkstra_basico in Ed as (_ & _ & Hb).
  destruct (grafo !! o) as [ady|]; [|by intros [= <-]].
  specialize (Hb (mk_is_Some _ _ eq_refl)).
  destruct (dist !! d) as [x|] eqn:Ex; [|by intros [= <-]].
  destruct (SFeqb x inf) eqn:Ef; [by intros [= <-]|].
  destruct (reconstruir_camino n prev o d) as [p| |] eqn:Ep; [|done..].
  cbn [res_bind]. intros [= <-]. split; [done|]. intros _. exists p. split; [done|].
  eapply reconstruir_camino_basico; [exact Hb|by exists x|exact Ep].
Qed.

(** ** Sin aristas que mejoren *)

Lemma inv_dijkstra_sin_mejora grafo origen cerrados m (dist : dist_t) (prev : prev_t) :
  grafo_cerrado grafo → pesos_no_negativos grafo →
  inv_dijkstra grafo origen cerrados m dist prev [] →
  ∀ u v w, peso grafo u v = Some w →
    ∃ du dv, dist !! u = Some du ∧ dist !! v = Some dv ∧
             SFleb dv (suma du w) = true.
Proof.
  intros Hcl Hnn Hinv u v w Hw.
  pose proof (ib_dom_dist _ _ _ _ _ (id_basico _ _ _ _ _ _ _ Hinv)) as Hdom.
  pose proof Hw as (ady & Hu & Hv)%peso_Some.
  assert (is_Some (dist !! u)) as [du Hdu].
  { apply elem_of_dom. rewrite Hdom. apply elem_of_dom. eauto. }
  assert (is_Some (dist !! v)) as [dv Hdv].
  { apply elem_of_dom. rewrite Hdom. apply elem_of_dom. exact (Hcl u ady Hu v w Hv). }
  exists du, dv. split_and!; [done..|].
  pose proof (id_nn _ _ _ _ _ _ _ Hinv u du Hdu) as Hnu.
  pose proof (id_nn _ _ _ _ _ _ _ Hinv v dv Hdv) as Hnv.
  pose proof (Hnn u ady Hu v w Hv) as Hpw. simpl in Hpw.
  apply SFleb_true_iff; [done|by apply suma_nn|].
  destruct (decide (valor du < tope)) as [Hf|Hf].
  - destruct (id_pend _ _ _ _ _ _ _ Hinv u du Hdu Hf) as [Hin|[]%elem_of_nil].
    destruct (id_cerrados _ _ _ _ _ _ _ Hinv u Hin) as (d' & Hd' & _ & _ & Hx).
    destruct (Hx v w Hw) as (dx & Hdx & Hle). by simplify_eq.
  - pose proof (suma_ge du w Hnu Hpw). pose proof (valor_range dv Hnv). lia.
Qed.

(** ** Comprobaciones sobre casos concretos *)

(** A igual distancia decide el nombre del nodo. *)
Example heappop_desempate :
  heappop [(dbl 1 0, "B"); (dbl 1 0, "A"); (dbl 2 0, "C")]%string
  = Some ((dbl 1 0, "A"), [(dbl 1 0, "B"); (dbl 2 0, "C")])%string.
Proof. apply (bool_decide_unpack _). vm_compute. exact I. Qed.

(** Para un par origen-destino repetido queda el último peso. *)
Example construir_grafo_repetida :
  peso (construir_grafo [("A", "B", dbl 5 0); ("A", "B", dbl 7 0)]%string) "A" "B"
  = Some (dbl 7 0).
Proof. apply (bool_decide_unpack _). vm_compute. exact I. Qed.

(** Con un ciclo de peso negativo las distancias bajan en cada vuelta y
    doscientas vueltas no bastan. *)
Example Dijkstra_ciclo_negativo :
  Dijkstra 200 (construir_grafo [("A", "B", dbl 1 0); ("B", "A", dbl (-2) 0)]%string) "A"
  = Agotado.
Proof. apply (bool_decide_unpack _). vm_compute. exact I. Qed.

(** Un destino que no es clave del grafo hace fallar la consulta
    [dist[v]]. *)
Example Dijkstra_grafo_abierto :
  Dijkstra 10 {[ "A"%string := {[ "B"%string := dbl 1 0 ]} ]} "A" = KeyError.
Proof. apply (bool_decide_unpack _). vm_compute. exact I. Qed.

(** La suma redondea: con pesos 0.1, 0.7 y 0.8 el camino por [B] suma
    0.7999999999999999, menos que la arista directa, y es el elegido. *)
Example procesar_envio_decimales :
  procesar_envio 10 (construir_grafo rutas_decimales) (1, "A", "C")%string
  = Ok (Resultado 1 "A" "C" (Some (dbl 7205759403792793 (-53)))
          (Some ["A"; "B"; "C"])
          (MsgRuta 1 "A" "C" (dbl 7205759403792793 (-53)) ["A"; "B"; "C"]))%string.
Proof. apply (bool_decide_unpack _). vm_compute. exact I. Qed.

(** La suma desborda: [2^1023 + 2^1023] es infinito, que no es menor que
    la distancia infinita inicial, y el destino queda sin ruta. *)
Example procesar_envio_desborde :
  procesar_envio 10 (construir_grafo rutas_enormes) (1, "A", "C")%string
  = Ok (Resultado 1 "A" "C" None None (MsgNoEncontrada 1 "A" "C"))%string.
Proof. apply (bool_decide_unpack _). vm_compute. exact I. Qed.

(** La suma de [float] no es la suma exacta: 0.1 + 0.2 da
    0.30000000000000004, por encima del valor exacto de los dos sumandos.
    En lo que sigue, la suma de los pesos de un camino y la de una
    distancia con un peso son siempre las del programa. *)
Example suma_redondea :
  suma (dbl 3602879701896397 (-55)) (dbl 3602879701896397 (-54))
  = dbl 1351079888211149 (-52) ∧
  valor (dbl 3602879701896397 (-55)) + valor (dbl 3602879701896397 (-54))
  < valor (dbl 1351079888211149 (-52)).
Proof. split; [by vm_compute|]. apply Z.ltb_lt. by vm_compute. Qed.

(** * Propiedades del programa *)

(** C1. Sobre el grafo construido a partir de rutas de peso no negativo,
    el lote se resuelve entero y todo resultado resuelto lleva un camino
    que empieza en el origen del envío, termina en su destino, tiene una
    arista menos que nodos, recorre aristas del grafo y cuyos pesos,
    sumados como [float] de izquierda a derecha, dan exactamente la
    distancia devuelta. *)
Theorem C1_camino_valido (rutas : list ruta) (envios : list envio) (n : nat) :
  rutas_no_negativas rutas →
  (combustible (construir_grafo rutas) ≤ n)%nat →
  ∃ rs, procesar_envios n (construir_grafo rutas) envios = Ok rs ∧
        Forall2 (λ e r, mismo_envio e r ∧
                        (estado_de r = RESOLVED →
                         camino_valido (construir_grafo rutas) r))
                envios rs.
Proof.
  intros Hnn Hn. apply mapM_Forall2. intros e _.
  apply procesar_envio_total;
    auto using construir_grafo_cerrado, construir_grafo_no_negativo.
Qed.

Lemma C1_camino_valido_testigo :
  ∃ rs, procesar_envios 10 (construir_grafo rutas_ejemplo) envios_ejemplo = Ok rs ∧
        Forall2 (λ e r, mismo_envio e r ∧
                        (estado_de r = RESOLVED →
                         camino_valido (construir_grafo rutas_ejemplo) r))
                envios_ejemplo rs.
Proof.
  apply (C1_camino_valido rutas_ejemplo envios_ejemplo 10).
  - apply (bool_decide_unpack _). vm_compute. exact I.
  - vm_compute. lia.
Defined.

(** C2. Con pesos no negativos y un origen que es clave del grafo,
    [Dijkstra] termina y, para toda arista [u → v] de peso [w], la distancia
    de [v] no supera la suma [float] de la de [u] y [w]. *)
Theorem C2_optimalidad (grafo : grafo_t) (origen : nodo) (n : nat) :
  grafo_cerrado grafo → pesos_no_negativos grafo →
  is_Some (grafo !! origen) →
  (combustible grafo ≤ n)%nat →
  ∃ dist prev,
    Dijkstra n grafo origen = Ok (dist, prev) ∧
    ∀ u v w, peso grafo u v = Some w →
      ∃ du dv, dist !! u = Some du ∧ dist !! v = Some dv ∧
               SFleb dv (suma du w) = true.
Proof.
  intros Hcl Hnn Ho Hn.
  destruct (Dijkstra_total grafo origen n) as (dist & prev & cerrados & m & Hd & Hinv);
    auto using combustible_dijkstra.
  exists dist, prev. split; [done|]. intros u v w Hw.
  by apply (inv_dijkstra_sin_mejora _ _ _ _ _ _ Hcl Hnn Hinv).
Qed.

Lemma C2_optimalidad_testigo :
  ∃ dist prev,
    Dijkstra 10 grafo_ejemplo "A" = Ok (dist, prev) ∧
    ∀ u v w, peso grafo_ejemplo u v = Some w →
      ∃ du dv, dist !! u = Some du ∧ dist !! v = Some dv ∧
               SFleb dv (suma du w) = true.
Proof.
  apply (C2_optimalidad grafo_ejemplo "A" 10).
  - apply (bool_decide_unpack _). vm_compute. exact I.
  - apply (bool_decide_unpack _). vm_compute. exact I.
  - vm_compute. eauto.
  - vm_compute. lia.
Defined.

(** C3. El escenario del programa principal, con un cuarto envío de origen
    desconocido: resuelto con 9.5 por A,B,C,D; inalcanzable; resuelto con 8
    por A,B,C; origen desconocido. *)
Theorem C3_escenario (n : nat) :
  (combustible grafo_ejemplo ≤ n)%nat →
  procesar_envios n grafo_ejemplo envios_ejemplo = Ok resultados_ejemplo ∧
  (λ r, (r_id r, estado_de r, r_dist r, r_camino r)) <$> resultados_ejemplo
  = [(1, RESOLVED, Some (dbl 19 (-1)), Some ["A"; "B"; "C"; "D"]);
     (2, UNREACHABLE, None, None);
     (3, RESOLVED, Some (dbl 8 0), Some ["A"; "B"; "C"]);
     (4, ORIGIN_UNKNOWN, None, None)]%string.
Proof.
  intros Hn. split; [|done].
  apply (procesar_envios_mono _ _ 10); [|exact Hn].
  apply (bool_decide_unpack _). vm_compute. exact I.
Qed.

Lemma C3_escenario_testigo :
  procesar_envios 10 grafo_ejemplo envios_ejemplo = Ok resultados_ejemplo ∧
  (λ r, (r_id r, estado_de r, r_dist r, r_camino r)) <$> resultados_ejemplo
  = [(1, RESOLVED, Some (dbl 19 (-1)), Some ["A"; "B"; "C"; "D"]);
     (2, UNREACHABLE, None, None);
     (3, RESOLVED, Some (dbl 8 0), Some ["A"; "B"; "C"]);
     (4, ORIGIN_UNKNOWN, None, None)]%string.
Proof. apply (C3_escenario 10). vm_compute. lia. Defined.

(** C4. Si el origen no es clave del grafo, [Dijkstra] devuelve sin error,
    sin gastar combustible, todas las distancias en infinito y todos los
    predecesores en [None]. *)
Theorem C4_origen_desconocido (grafo : grafo_t) (origen : nodo) (n : nat) :
  grafo !! origen = None →
  ∃ dist prev,
    Dijkstra n grafo origen = Ok (dist, prev) ∧
    ∀ v, is_Some (grafo !! v) → dist !! v = Some inf ∧ prev !! v = Some None.
Proof.
  intros Ho. unfold Dijkstra. rewrite Ho. eexists _, _. split; [done|].
  intros v [ady Hv]. by rewrite !lookup_fmap, Hv.
Qed.

Lemma C4_origen_desconocido_testigo :
  ∃ dist prev,
    Dijkstra 0 grafo_ejemplo "Z" = Ok (dist, prev) ∧
    ∀ v, is_Some (grafo_ejemplo !! v) →
         dist !! v = Some inf ∧ prev !! v = Some None.
Proof. apply (C4_origen_desconocido grafo_ejemplo "Z" 0). vm_compute. reflexivity. Defined.

(** C5. Sobre cualquier grafo, ningún resultado que [procesar_envios]
    devuelva está resuelto con camino vacío. *)
Theorem C5_sin_camino_vacio (grafo : grafo_t) (envios : list envio) (n : nat)
    (rs : list resultado) :
  procesar_envios n grafo envios = Ok rs →
  Forall (λ r, estado_de r = RESOLVED → ∃ p, r_camino r = Some p ∧ p ≠ []) rs.
Proof.
  intros Hrs%mapM_Ok_inv. induction Hrs as [|e r envios rs Hr _ IH]; constructor; [|done].
  intros Hres. destruct (procesar_envio_basico _ _ _ _ Hr) as [_ Hp].
  destruct (Hp Hres) as (p & Hc & Hh). exists p. split; [done|]. by intros ->.
Qed.

Lemma C5_sin_camino_vacio_testigo :
  Forall (λ r, estado_de r = RESOLVED → ∃ p, r_camino r = Some p ∧ p ≠ [])
         resultados_ejemplo.
Proof.
  apply (C5_sin_camino_vacio grafo_ejemplo envios_ejemplo 10).
  apply (bool_decide_unpack _). vm_compute. exact I.
Defined.

(** C6, enmendada. Con pesos no negativos y un origen que es clave del
    grafo, [Dijkstra] termina y la distancia del origen es 0. *)
Theorem C6_distancia_del_origen (grafo : grafo_t) (origen : nodo) (n : nat) :
  grafo_cerrado grafo → pesos_no_negativos grafo →
  is_Some (grafo !! origen) →
  (combustible grafo ≤ n)%nat →
  ∃ dist prev,
    Dijkstra n grafo origen = Ok (dist, prev) ∧
    dist !! origen = Some cero.
Proof.
  intros Hcl Hnn Ho Hn.
  destruct (Dijkstra_total grafo origen n) as (dist & prev & cerrados & m & Hd & Hinv);
    auto using combustible_dijkstra.
  exists dist, prev. split; [done|]. by destruct (id_origen _ _ _ _ _ _ _ Hinv).
Qed.

Lemma C6_distancia_del_origen_testigo :
  ∃ dist prev,
    Dijkstra 10 grafo_ejemplo "A" = Ok (dist, prev) ∧
    dist !! "A" = Some cero.
Proof.
  apply (C6_distancia_del_origen grafo_ejemplo "A" 10).
  - apply (bool_decide_unpack _). vm_compute. exact I.
  - apply (bool_decide_unpack _). vm_compute. exact I.
  - vm_compute. eauto.
  - vm_compute. lia.
Defined.

(** C6 tal como está enunciada falla cuando el origen no es clave del
    grafo: el mapa devuelto no tiene entrada para él. *)
Lemma C6_contraejemplo :
  ∃ dist prev,
    Dijkstra 10 grafo_ejemplo "Z" = Ok (dist, prev) ∧
    dist !! "Z" = None ∧ dist !! "Z" ≠ Some cero.
Proof.
  eexists _, _. split; [reflexivity|]. split; [|intros H; revert H]; by vm_compute.
Qed.

(** C7. Sobre un grafo cerrado de pesos no negativos, el lote entero se
    resuelve: un resultado por envío, en el mismo orden, sea cual sea el
    desenlace de cada uno. *)
Theorem C7_un_resultado_por_envio (grafo : grafo_t) (envios : list envio) (n : nat) :
  grafo_cerrado grafo → pesos_no_negativos grafo →
  (combustible grafo ≤ n)%nat →
  ∃ rs, procesar_envios n grafo envios = Ok rs ∧
        length rs = length envios ∧
        Forall2 mismo_envio envios rs.
Proof.
  intros Hcl Hnn Hn.
  destruct (mapM_Forall2 (procesar_envio n grafo) mismo_envio envios) as (rs & Hrs & HF).
  { intros e _. destruct (procesar_envio_total grafo n e) as (r & Hr & He & _); eauto. }
  exists rs. split_and!; [done| |done]. symmetry. by eapply Forall2_length.
Qed.

Lemma C7_un_resultado_por_envio_testigo :
  ∃ rs, procesar_envios 10 grafo_ejemplo envios_ejemplo = Ok rs ∧
        length rs = length envios_ejemplo ∧
        Forall2 mismo_envio envios_ejemplo rs.
Proof.
  apply (C7_un_resultado_por_envio grafo_ejemplo envios_ejemplo 10).
  - apply (bool_decide_unpack _). vm_compute. exact I.
  - apply (bool_decide_unpack _). vm_compute. exact I.
  - vm_compute. lia.
Defined.

(** C8. Los dos extremos de toda ruta son claves del grafo construido; el
    que no es origen de ninguna ruta queda con adyacencia vacía. *)
Theorem C8_nodos_son_claves (rutas : list ruta) (o d : nodo) (w : spec_float) :
  (o, d, w) ∈ rutas →
  is_Some (construir_grafo rutas !! o) ∧
  is_Some (construir_grafo rutas !! d) ∧
  ∀ x, x = o ∨ x = d → (∀ d' w', (x, d', w') ∉ rutas) →
       construir_grafo rutas !! x = Some ∅.
Proof.
  intros Hin. destruct (construir_grafo_nodo rutas o d w Hin) as [Ho Hd].
  split_and!; [done..|].
  intros x [->| ->] Hno; by apply construir_grafo_sumidero.
Qed.

Lemma C8_nodos_son_claves_testigo :
  is_Some (grafo_ejemplo !! "C") ∧
  is_Some (grafo_ejemplo !! "D") ∧
  ∀ x, x = "C" ∨ x = "D" → (∀ d' w', (x, d', w') ∉ rutas_ejemplo) →
       grafo_ejemplo !! x = Some ∅.
Proof.
  apply (C8_nodos_son_claves rutas_ejemplo "C" "D" (dbl 3 (-1))).
  apply (bool_decide_unpack _). vm_compute. exact I.
Defined.

(** C9. Un envío cuyo origen y destino coinciden en una clave del grafo se
    resuelve con distancia 0 y el camino de un solo nodo. *)
Theorem C9_envio_a_si_mismo (grafo : grafo_t) (envios : list envio) (n : nat) :
  grafo_cerrado grafo → pesos_no_negativos grafo →
  (combustible grafo ≤ n)%nat →
  ∃ rs, procesar_envios n grafo envios = Ok rs ∧
        ∀ i id o, envios !! i = Some (id, o, o) → is_Some (grafo !! o) →
          ∃ r, rs !! i = Some r ∧ mismo_envio (id, o, o) r ∧
               estado_de r = RESOLVED ∧
               r_dist r = Some cero ∧ r_camino r = Some [o].
Proof.
  intros Hcl Hnn Hn.
  destruct (mapM_Forall2 (procesar_envio n grafo)
              (λ e r, procesar_envio n grafo e = Ok r) envios) as (rs & Hrs & HF).
  { intros e _. destruct (procesar_envio_total grafo n e) as (r & Hr & _); eauto. }
  exists rs. split; [done|]. intros i id o Hi Ho.
  destruct (Forall2_lookup_l _ _ _ _ _ HF Hi) as (r & Hr & Hp).
  rewrite procesar_envio_mismo in Hp by done. simplify_eq.
  eexists. by split_and!.
Qed.

Lemma C9_envio_a_si_mismo_testigo :
  ∃ rs, procesar_envios 10 grafo_ejemplo [(7, "B", "B")]%string = Ok rs ∧
        ∀ i id o, [(7, "B", "B")]%string !! i = Some (id, o, o) →
          is_Some (grafo_ejemplo !! o) →
          ∃ r, rs !! i = Some r ∧ mismo_envio (id, o, o) r ∧
               estado_de r = RESOLVED ∧
               r_dist r = Some cero ∧ r_camino r = Some [o].
Proof.
  apply (C9_envio_a_si_mismo grafo_ejemplo [(7, "B", "B")]%string 10).
  - apply (bool_decide_unpack _). vm_compute. exact I.
  - apply (bool_decide_unpack _). vm_compute. exact I.
  - vm_compute. lia.
Defined.

(** C10. Los dos mapas que [Dijkstra] devuelve tienen por claves
    exactamente las del grafo, sea el origen clave o no; y sobre un grafo
    cerrado de pesos no negativos [Dijkstra] los devuelve. *)
Theorem C10_claves_de_los_mapas (grafo : grafo_t) (origen : nodo) (n : nat) :
  (∀ dist prev, Dijkstra n grafo origen = Ok (dist, prev) →
                dom dist = dom grafo ∧ dom prev = dom grafo) ∧
  (grafo_cerrado grafo → pesos_no_negativos grafo →
   (combustible grafo ≤ n)%nat →
   ∃ dist prev, Dijkstra n grafo origen = Ok (dist, prev) ∧
                dom dist = dom grafo ∧ dom prev = dom grafo).
Proof.
  split.
  - intros dist prev Hd. by apply Dijkstra_basico in Hd as (? & ? & _).
  - intros Hcl Hnn Hn.
    destruct (Dijkstra_devuelve grafo origen n Hcl Hnn Hn) as (dist & prev & Hd).
    exists dist, prev. split; [done|].
    by apply Dijkstra_basico in Hd as (? & ? & _).
Qed.

Lemma C10_claves_de_los_mapas_testigo :
  (∃ dist prev, Dijkstra 10 grafo_ejemplo "A" = Ok (dist, prev) ∧
                dom dist = dom grafo_ejemplo ∧ dom prev = dom grafo_ejemplo) ∧
  (∃ dist prev, Dijkstra 10 grafo_ejemplo "Z" = Ok (dist, prev) ∧
                dom dist = dom grafo_ejemplo ∧ dom prev = dom grafo_ejemplo).
Proof.
  split.
  - apply (C10_claves_de_los_mapas grafo_ejemplo "A" 10).
    + apply (bool_decide_unpack _). vm_compute. exact I.
    + apply (bool_decide_unpack _). vm_compute. exact I.
    + vm_compute. lia.
  - apply (C10_claves_de_los_mapas grafo_ejemplo "Z" 10).
    + apply (bool_decide_unpack _). vm_compute. exact I.
    + apply (bool_decide_unpack _). vm_compute. exact I.
    + vm_compute. lia.
Defined.

(** * Más propiedades del programa *)

(** ** El grafo construido *)

Lemma agregar_ruta_peso_eq (grafo : grafo_t) nodos o' d' w' o d :
  peso (agregar_ruta (grafo, nodos) (o', d', w')).1 o d =
  if decide (o' = o ∧ d' = d) then Some w' else peso grafo o d.
Proof.
  unfold peso at 1. rewrite agregar_ruta_lookup.
  destruct (decide (o = o')) as [->|Hne].
  - simpl. destruct (decide (d' = d)) as [->|Hd].
    + rewrite lookup_insert_eq. by rewrite decide_True.
    + rewrite lookup_insert_ne by done. rewrite decide_False by (by intros [_ ?]).
      unfold peso. by destruct (grafo !! o').
  - rewrite decide_False; [done|]. intros [? _]. by apply Hne.
Qed.

Lemma foldl_agregar_ruta_peso rutas :
  ∀ (grafo : grafo_t) nodos o d,
  peso (foldl agregar_ruta (grafo, nodos) rutas).1 o d =
  match ultimo_peso rutas o d with
  | Some w => Some w
  | None => peso grafo o d
  end.
Proof.
  induction rutas as [|[[o' d'] w'] rutas IH]; intros grafo nodos o d; [done|].
  cbn [foldl]. destruct (agregar_ruta (grafo, nodos) (o', d', w')) as [g1 n1] eqn:E1.
  rewrite IH. assert (g1 = (agregar_ruta (grafo, nodos) (o', d', w')).1) as ->
    by (by rewrite E1).
  rewrite agregar_ruta_peso_eq. unfold ultimo_peso. cbn [omap list_omap fst snd].
  fold (omap (λ r : ruta, if decide (r.1.1 = o ∧ r.1.2 = d) then Some r.2 else None) rutas).
  destruct (decide (o' = o ∧ d' = d)) as [Heq|Hne]; [|done].
  rewrite last_cons. by destruct (last _).
Qed.

Lemma foldl_setdefault_peso l (grafo : grafo_t) o d :
  peso (foldl setdefault_vacio grafo l) o d = peso grafo o d.
Proof.
  unfold peso. rewrite foldl_setdefault_lookup.
  destruct (grafo !! o); [done|]. by case_decide.
Qed.

(** X1. Entre un origen y un destino, el grafo construido guarda el peso
    de la última ruta de la lista que los une, y ninguna arista si no hay
    tal ruta. *)
Theorem X1_ultimo_peso_gana (rutas : list ruta) (o d : nodo) :
  peso (construir_grafo rutas) o d = ultimo_peso rutas o d.
Proof.
  unfold construir_grafo.
  pose proof (foldl_agregar_ruta_peso rutas ∅ ∅ o d) as H.
  destruct (foldl agregar_ruta (∅, ∅) rutas) as [g nodos].
  rewrite foldl_setdefault_peso. cbn [fst] in H. rewrite H.
  destruct (ultimo_peso rutas o d); [done|].
  unfold peso. by rewrite lookup_empty.
Qed.

Lemma foldl_agregar_ruta_nodos rutas :
  ∀ (grafo : grafo_t) nodos x,
  x ∈ (foldl agregar_ruta (grafo, nodos) rutas).2 → x ∈ nodos ∨ nodo_de rutas x.
Proof.
  induction rutas as [|[[o d] w] rutas IH]; intros grafo nodos x; cbn [foldl]; [by left|].
  destruct (agregar_ruta (grafo, nodos) (o, d, w)) as [g1 n1] eqn:E1.
  assert (n1 = nodos ∪ {[o]} ∪ {[d]}) as ->.
  { by rewrite <- (agregar_ruta_nodos grafo nodos o d w), E1. }
  intros [Hx|(o' & d' & w' & Hin & Hx)]%IH.
  - rewrite !elem_of_union, !elem_of_singleton in Hx.
    destruct Hx as [[?| ->]| ->]; [by left|right; exists o, d, w..];
      (split; [by left|auto]).
  - right. exists o', d', w'. split; [by right|done].
Qed.

(** X2. Las claves del grafo construido son exactamente los nodos que
    aparecen en alguna ruta, como origen o como destino. *)
Theorem X2_claves_del_grafo (rutas : list ruta) (x : nodo) :
  is_Some (construir_grafo rutas !! x) ↔ nodo_de rutas x.
Proof.
  split.
  - rewrite construir_grafo_lookup. cbn zeta.
    destruct (foldl_agregar_ruta rutas ∅ ∅) as (_ & Hkeys & _).
    destruct ((foldl agregar_ruta (∅, ∅) rutas).1 !! x) as [a|] eqn:Ea.
    + intros _. destruct (Hkeys x) as [[? Hx]|(d & w & Hin)]; [by rewrite Ea| |].
      * by rewrite lookup_empty in Hx.
      * exists x, d, w. auto.
    + case_decide as Hx; [|by intros [? ?]]. intros _.
      apply elem_of_elements, foldl_agregar_ruta_nodos in Hx as [Hx|Hx]; [|done].
      by apply elem_of_empty in Hx.
  - intros (o & d & w & Hin & [->| ->]);
      by destruct (construir_grafo_nodo rutas o d w Hin).
Qed.

(** ** Distancias mínimas *)

Lemma distancia_camino_snoc_inv grafo p v d :
  p ≠ [] → distancia_camino grafo (p ++ [v]) = Some d →
  ∃ u d' w, last p = Some u ∧ distancia_camino grafo p = Some d' ∧
            peso grafo u v = Some w ∧ d = suma d' w.
Proof.
  intros Hp Hd. apply last_is_Some in Hp as [u Hu].
  rewrite distancia_camino_eq, (aristas_de_snoc p u v Hu), foldl_app in Hd.
  rewrite distancia_camino_eq. cbn [foldl] in Hd. unfold paso_camino at 1 in Hd.
  destruct (foldl (paso_camino grafo) (Some cero) (aristas_de p)) as [d'|]; [|done].
  cbn [mbind option_bind fst snd] in Hd.
  destruct (peso grafo u v) as [w|] eqn:Ew; [|done]. simplify_eq/=.
  by exists u, d', w.
Qed.

(** Ninguna distancia supera la suma de los pesos de un camino desde el
    origen: la suma es monótona en su primer sumando. *)
Lemma inv_dijkstra_minimo grafo origen cerrados m (dist : dist_t) (prev : prev_t) :
  grafo_cerrado grafo → pesos_no_negativos grafo →
  inv_dijkstra grafo origen cerrados m dist prev [] →
  ∀ p v d, es_camino grafo origen v p d →
           ∃ dv, dist !! v = Some dv ∧ nn dv ∧ nn d ∧ valor dv <= valor d.
Proof.
  intros Hcl Hnn Hinv p.
  induction p as [|x p IH] using rev_ind; intros v d (Hh & Hl & Hd); [done|].
  rewrite last_snoc in Hl. simplify_eq.
  destruct p as [|y p].
  { simpl in Hh. simplify_eq.
    change (distancia_camino grafo [origen]) with (Some cero) in Hd.
    injection Hd as <-. destruct (id_origen _ _ _ _ _ _ _ Hinv) as [Hs _].
    exists cero. split_and!; [done..|lia]. }
  destruct (distancia_camino_snoc_inv grafo (y :: p) v d) as (u & d' & w & Hu & Hd' & Hw & ->);
    [done..|].
  destruct (IH u d') as (du & Hdu & Hndu & Hnd' & Hle); [by split_and!|].
  destruct (inv_dijkstra_sin_mejora _ _ _ _ _ _ Hcl Hnn Hinv u v w Hw)
    as (du0 & dv & Hdu0 & Hdv & Hle2).
  simplify_eq.
  assert (peso_ok w = true) as Hpw.
  { apply peso_Some in Hw as (ady & Hg & Hv). exact (Hnn u ady Hg v w Hv). }
  pose proof (id_nn _ _ _ _ _ _ _ Hinv v dv Hdv) as Hndv.
  apply SFleb_true_iff in Hle2; [|done|by apply suma_nn].
  exists dv. split_and!; [done..|by apply suma_nn|].
  pose proof (suma_mono du d' w Hndu Hnd' Hpw Hle). lia.
Qed.

Lemma inv_dijkstra_camino grafo origen cerrados m (dist : dist_t) (prev : prev_t) v dv :
  inv_dijkstra grafo origen cerrados m dist prev [] →
  dist !! v = Some dv → SFeqb dv inf = false → ∃ p, es_camino grafo origen v p dv.
Proof.
  intros Hinv Hdv Hf.
  destruct (reconstruir_camino_total grafo origen cerrados m dist prev
              (size grafo) v dv Hinv Hdv Hf) as (p & _ & Hh & Hl & Hd); [done|].
  by exists p.
Qed.

(** X3. Con pesos no negativos y origen conocido, la distancia que
    [Dijkstra] da a un nodo no supera la suma [float], de izquierda a
    derecha, de los pesos de ningún camino del grafo que llegue a él desde
    el origen. *)
Theorem X3_distancia_minima (grafo : grafo_t) (origen : nodo) (n : nat) :
  grafo_cerrado grafo → pesos_no_negativos grafo →
  is_Some (grafo !! origen) →
  (combustible grafo ≤ n)%nat →
  ∃ dist prev,
    Dijkstra n grafo origen = Ok (dist, prev) ∧
    ∀ p v d, es_camino grafo origen v p d →
             ∃ dv, dist !! v = Some dv ∧ SFleb dv d = true.
Proof.
  intros Hcl Hnn Ho Hn.
  destruct (Dijkstra_total grafo origen n) as (dist & prev & cerrados & m & Hd & Hinv);
    auto using combustible_dijkstra.
  exists dist, prev. split; [done|]. intros p v d Hp.
  destruct (inv_dijkstra_minimo _ _ _ _ _ _ Hcl Hnn Hinv p v d Hp)
    as (dv & Hdv & Hndv & Hnd & Hle).
  exists dv. split; [done|]. by apply SFleb_true_iff.
Qed.

Lemma X3_distancia_minima_testigo :
  ∃ dist prev,
    Dijkstra 10 grafo_ejemplo "A" = Ok (dist, prev) ∧
    ∀ p v d, es_camino grafo_ejemplo "A" v p d →
             ∃ dv, dist !! v = Some dv ∧ SFleb dv d = true.
Proof.
  apply (X3_distancia_minima grafo_ejemplo "A" 10).
  - apply (bool_decide_unpack _). vm_compute. exact I.
  - apply (bool_decide_unpack _). vm_compute. exact I.
  - vm_compute. eauto.
  - vm_compute. lia.
Defined.

(** X4. Con pesos no negativos y origen conocido, toda distancia no
    infinita que [Dijkstra] devuelve es la suma [float], de izquierda a
    derecha, de los pesos de un camino del grafo desde el origen hasta ese
    nodo. *)
Theorem X4_distancia_alcanzada (grafo : grafo_t) (origen : nodo) (n : nat) :
  grafo_cerrado grafo → pesos_no_negativos grafo →
  is_Some (grafo !! origen) →
  (combustible grafo ≤ n)%nat →
  ∃ dist prev,
    Dijkstra n grafo origen = Ok (dist, prev) ∧
    ∀ v dv, dist !! v = Some dv → SFeqb dv inf = false →
            ∃ p, es_camino grafo origen v p dv.
Proof.
  intros Hcl Hnn Ho Hn.
  destruct (Dijkstra_total grafo origen n) as (dist & prev & cerrados & m & Hd & Hinv);
    auto using combustible_dijkstra.
  exists dist, prev. split; [done|]. intros v dv. by eapply inv_dijkstra_camino.
Qed.

Lemma X4_distancia_alcanzada_testigo :
  ∃ dist prev,
    Dijkstra 10 grafo_ejemplo "A" = Ok (dist, prev) ∧
    ∀ v dv, dist !! v = Some dv → SFeqb dv inf = false →
            ∃ p, es_camino grafo_ejemplo "A" v p dv.
Proof.
  apply (X4_distancia_alcanzada grafo_ejemplo "A" 10).
  - apply (bool_decide_unpack _). vm_compute. exact I.
  - apply (bool_decide_unpack _). vm_compute. exact I.
  - vm_compute. eauto.
  - vm_compute. lia.
Defined.

(** X5. Con pesos no negativos y origen conocido, un nodo del grafo queda
    con distancia infinita exactamente cuando ningún camino desde el origen
    llega a él con pesos cuya suma [float] no sea infinita. *)
Theorem X5_infinito_si_inalcanzable (grafo : grafo_t) (origen : nodo) (n : nat) :
  grafo_cerrado grafo → pesos_no_negativos grafo →
  is_Some (grafo !! origen) →
  (combustible grafo ≤ n)%nat →
  ∃ dist prev,
    Dijkstra n grafo origen = Ok (dist, prev) ∧
    ∀ v, is_Some (grafo !! v) →
         (dist !! v = Some inf ↔
          ¬ ∃ p d, es_camino grafo origen v p d ∧ SFeqb d inf = false).
Proof.
  intros Hcl Hnn Ho Hn.
  destruct (Dijkstra_total grafo origen n) as (dist & prev & cerrados & m & Hd & Hinv);
    auto using combustible_dijkstra.
  exists dist, prev. split; [done|]. intros v Hv. split.
  - intros Hinf (p & d & Hp & Hf).
    destruct (inv_dijkstra_minimo _ _ _ _ _ _ Hcl Hnn Hinv p v d Hp)
      as (dv & Hdv & _ & Hnd & Hle).
    apply SFeqb_inf_false in Hf; [|done]. simplify_eq. rewrite valor_inf in Hle. lia.
  - intros Hno.
    assert (is_Some (dist !! v)) as [dv Hdv].
    { apply elem_of_dom. rewrite (ib_dom_dist _ _ _ _ _ (id_basico _ _ _ _ _ _ _ Hinv)).
      by apply elem_of_dom. }
    pose proof (id_nn _ _ _ _ _ _ _ Hinv v dv Hdv) as Hndv.
    destruct (SFeqb dv inf) eqn:Ef.
    + rewrite SFeqb_valor in Ef by done. apply Z.eqb_eq in Ef.
      rewrite valor_inf in Ef. apply valor_tope in Ef; [|done]. by subst.
    + destruct (inv_dijkstra_camino _ _ _ _ _ _ v dv Hinv Hdv Ef) as (p & Hp).
      destruct Hno. eauto.
Qed.

Lemma X5_infinito_si_inalcanzable_testigo :
  ∃ dist prev,
    Dijkstra 10 grafo_ejemplo "B" = Ok (dist, prev) ∧
    ∀ v, is_Some (grafo_ejemplo !! v) →
         (dist !! v = Some inf ↔
          ¬ ∃ p d, es_camino grafo_ejemplo "B" v p d ∧ SFeqb d inf = false).
Proof.
  apply (X5_infinito_si_inalcanzable grafo_ejemplo "B" 10).
  - apply (bool_decide_unpack _). vm_compute. exact I.
  - apply (bool_decide_unpack _). vm_compute. exact I.
  - vm_compute. eauto.
  - vm_compute. lia.
Defined.

(** X6. Con pesos no negativos y origen conocido, el origen no tiene
    predecesor, un nodo de distancia infinita tampoco, y cada predecesor
    [u] de [v] tiene distancia no infinita y es extremo de una arista
    [u → v] cuyo peso, sumado como [float] a la distancia de [u], da la de
    [v]. *)
Theorem X6_predecesores_ajustados (grafo : grafo_t) (origen : nodo) (n : nat) :
  grafo_cerrado grafo → pesos_no_negativos grafo →
  is_Some (grafo !! origen) →
  (combustible grafo ≤ n)%nat →
  ∃ dist prev,
    Dijkstra n grafo origen = Ok (dist, prev) ∧
    prev !! origen = Some None ∧
    (∀ v, dist !! v = Some inf → prev !! v = Some None) ∧
    (∀ v u, prev !! v = Some (Some u) →
       ∃ w du, peso grafo u v = Some w ∧ dist !! u = Some du ∧
               SFeqb du inf = false ∧ dist !! v = Some (suma du w)).
Proof.
  intros Hcl Hnn Ho Hn.
  destruct (Dijkstra_total grafo origen n) as (dist & prev & cerrados & m & Hd & Hinv);
    auto using combustible_dijkstra.
  exists dist, prev. split_and!; [done|by destruct (id_origen _ _ _ _ _ _ _ Hinv)|..].
  - intros v Hv.
    assert (is_Some (prev !! v)) as [[u|] Hp]; [|exfalso|done].
    { apply elem_of_dom. rewrite (ib_dom_prev _ _ _ _ _ (id_basico _ _ _ _ _ _ _ Hinv)).
      rewrite <- (ib_dom_dist _ _ _ _ _ (id_basico _ _ _ _ _ _ _ Hinv)).
      apply elem_of_dom. eauto. }
    destruct (id_prev _ _ _ _ _ _ _ Hinv v u Hp) as [_ (w & d & _ & _ & Hdv & Hf)].
    rewrite Hv in Hdv. injection Hdv as Hi. rewrite <- Hi, valor_inf in Hf. lia.
  - intros v u Hp.
    destruct (id_prev _ _ _ _ _ _ _ Hinv v u Hp) as [Hu (w & d & Hw & Hdu & Hdv & _)].
    destruct (id_cerrados _ _ _ _ _ _ _ Hinv u Hu) as (d' & Hd' & Hf & _).
    simplify_eq. exists w, d. split_and!; [done..| |done].
    by apply (inv_dijkstra_finita _ _ _ _ _ _ _ _ _ Hinv Hdu).
Qed.

Lemma X6_predecesores_ajustados_testigo :
  ∃ dist prev,
    Dijkstra 10 grafo_ejemplo "A" = Ok (dist, prev) ∧
    prev !! "A" = Some None ∧
    (∀ v, dist !! v = Some inf → prev !! v = Some None) ∧
    (∀ v u, prev !! v = Some (Some u) →
       ∃ w du, peso grafo_ejemplo u v = Some w ∧ dist !! u = Some du ∧
               SFeqb du inf = false ∧ dist !! v = Some (suma du w)).
Proof.
  apply (X6_predecesores_ajustados grafo_ejemplo "A" 10).
  - apply (bool_decide_unpack _). vm_compute. exact I.
  - apply (bool_decide_unpack _). vm_compute. exact I.
  - vm_compute. eauto.
  - vm_compute. lia.
Defined.

(** X7. Con pesos no negativos, el bucle de [Dijkstra] acaba en a lo sumo
    una vuelta por arista del grafo más una. *)
Theorem X7_vueltas_del_bucle (grafo : grafo_t) (origen : nodo) :
  grafo_cerrado grafo → pesos_no_negativos grafo →
  ∃ dist prev, Dijkstra (S (num_aristas grafo)) grafo origen = Ok (dist, prev).
Proof.
  intros Hcl Hnn. destruct (grafo !! origen) as [ady|] eqn:Eo.
  - destruct (Dijkstra_total grafo origen (S (num_aristas grafo)))
      as (dist & prev & _ & _ & Hd & _); eauto.
  - unfold Dijkstra. rewrite Eo. eauto.
Qed.

Lemma X7_vueltas_del_bucle_testigo :
  ∃ dist prev, Dijkstra (S (num_aristas grafo_ejemplo)) grafo_ejemplo "A" = Ok (dist, prev).
Proof.
  apply (X7_vueltas_del_bucle grafo_ejemplo "A").
  - apply (bool_decide_unpack _). vm_compute. exact I.
  - apply (bool_decide_unpack _). vm_compute. exact I.
Defined.

(** ** Pesos de cualquier signo *)

Lemma SFltb_irrefl x : SFltb x x = false.
Proof.
  destruct x as [s|[]| |[] m e]; try done; unfold SFltb, SFcompare;
    change (Pos.compare_cont Eq m m) with (Pos.compare m m);
    by rewrite Z.compare_refl, Pos.compare_refl.
Qed.

Lemma SFltb_fin_pos m1 e1 m2 e2 :
  SFltb (S754_finite false m1 e1) (S754_finite false m2 e2) = true ↔
  e1 < e2 ∨ (e1 = e2 ∧ (m1 < m2)%positive).
Proof.
  unfold SFltb, SFcompare.
  change (Pos.compare_cont Eq m1 m2) with (Pos.compare m1 m2).
  destruct (Z.compare_spec e1 e2); [|split; [lia|done]|split; [done|lia]].
  destruct (Pos.compare_spec m1 m2); split; try done; lia.
Qed.

Lemma SFltb_fin_neg m1 e1 m2 e2 :
  SFltb (S754_finite true m1 e1) (S754_finite true m2 e2) = true ↔
  e2 < e1 ∨ (e1 = e2 ∧ (m2 < m1)%positive).
Proof.
  unfold SFltb, SFcompare.
  change (Pos.compare_cont Eq m1 m2) with (Pos.compare m1 m2).
  destruct (Z.compare_spec e1 e2); [|split; [done|lia]|split; [lia|done]].
  destruct (Pos.compare_spec m1 m2); split; try done; simpl; lia.
Qed.

(** [<] es transitiva sobre todos los [float], sean del signo que sean. *)
Lemma SFltb_trans x y z : SFltb x y = true → SFltb y z = true → SFltb x z = true.
Proof.
  destruct x as [sx|[]| |[] mx ex]; try done;
    destruct y as [sy|[]| |[] my ey]; try done;
    destruct z as [sz|[]| |[] mz ez]; try done;
    rewrite ?SFltb_fin_pos, ?SFltb_fin_neg; lia.
Qed.

Lemma SFltb_suma_inf w x : SFltb (suma inf w) x = false.
Proof.
  destruct w as [sw|[]| |sw mw ew]; try done;
    by destruct x as [sx|[]| |[] mx ex].
Qed.

Lemma inv_etiquetas_inicial (grafo : grafo_t) origen :
  is_Some (grafo !! origen) →
  inv_etiquetas grafo origen
    (<[origen := cero]> ((λ _, inf) <$> grafo))
    ((λ _, None) <$> grafo) [(cero, origen)].
Proof.
  intros Ho. split.
  - by apply inv_basico_inicial.
  - intros k v [[= -> ->]|[]%elem_of_nil]%elem_of_cons.
    exists cero. split; [apply lookup_insert_eq|by left].
  - intros v d Hd. destruct (decide (origen = v)) as [->|Hne].
    + rewrite lookup_insert_eq in Hd. simplify_eq. right. left. by left.
    + rewrite lookup_insert_ne, lookup_fmap in Hd by done.
      destruct (grafo !! v); [|done]. simpl in Hd. left. congruence.
Qed.

Lemma inv_etiquetas_caducada grafo origen (dist : dist_t) (prev : prev_t)
    heap k u h0 d :
  inv_etiquetas grafo origen dist prev heap →
  heap ≡ₚ (k, u) :: h0 →
  dist !! u = Some d → SFltb d k = true →
  inv_etiquetas grafo origen dist prev h0.
Proof.
  intros [Hb Hheap Hpend] Hp Hd Hlt.
  assert (∀ e, e ∈ h0 → e ∈ heap) as Hsub.
  { intros e He. rewrite Hp. by right. }
  split; [by eapply inv_basico_heap|by eauto|].
  intros v d' Hd'. destruct (Hpend v d' Hd') as [?|[Hin|?]]; [by left| |by right; right].
  rewrite Hp in Hin. apply elem_of_cons in Hin as [[= -> ->]|Hin]; [|right; by left].
  simplify_eq. by rewrite SFltb_irrefl in Hlt.
Qed.

Lemma inv_etiquetas_relajar grafo origen (dist : dist_t) (prev : prev_t)
    heap k u h0 ady :
  grafo_cerrado grafo →
  inv_etiquetas grafo origen dist prev heap →
  heap ≡ₚ (k, u) :: h0 →
  dist !! u = Some k → grafo !! u = Some ady →
  ∃ dist' prev' heap',
    foldM (relajar u k) (dist, prev, h0) (map_to_list ady)
      = Ok (dist', prev', heap') ∧
    inv_etiquetas grafo origen dist' prev' heap'.
Proof.
  intros Hcl [Hb Hheap Hpend] Hp Hdu Hg.
  assert (∀ e, e ∈ h0 → e ∈ heap) as Hsub.
  { intros e He. rewrite Hp. by right. }
  assert (∀ v w, ady !! v = Some w → is_Some (dist !! v)) as Hkeys.
  { intros v w Hv. apply elem_of_dom. rewrite (ib_dom_dist _ _ _ _ _ Hb).
    apply elem_of_dom. exact (Hcl u ady Hg v w Hv). }
  destruct (relajar_todo u k ady dist prev h0 Hkeys)
    as (dist' & prev' & heap' & Hf & Hcase & Hh' & _ & _).
  exists dist', prev', heap'. split; [done|].
  assert (∀ v dv, dist !! v = Some dv →
          ∃ dv', dist' !! v = Some dv' ∧ (dv' = dv ∨ SFltb dv' dv = true)) as Hmono.
  { intros v dv Hdv. destruct (Hcase v) as [(w & Hady & Hm' & Hd' & _)|(_ & Hd' & _)].
    - apply mejora_true_inv in Hm' as (dv0 & Hdv0 & Hlt). simplify_eq.
      exists (suma k w). split; [done|by right].
    - exists dv. split; [congruence|by left]. }
  split.
  - eapply foldM_relajar_basico; [|eapply inv_basico_heap; [exact Hsub|exact Hb]|exact Hf].
    apply (ib_heap _ _ _ _ _ Hb k). rewrite Hp. by left.
  - intros k' v Hin. apply Hh' in Hin as [Hin|(v' & w & Hady & Hm' & [= -> ->])].
    + destruct (Hheap k' v (Hsub _ Hin)) as (d & Hd & Hdk).
      destruct (Hmono v d Hd) as (d' & Hd' & Hle).
      exists d'. split; [done|].
      destruct Hle as [->|Hle]; [done|]. right.
      destruct Hdk as [<-|Hdk]; [done|]. by eapply SFltb_trans.
    + destruct (Hcase v') as [(w' & Hady' & _ & Hd' & _)|(Hno & _)].
      * simplify_eq. exists (suma k w). split; [done|by left].
      * rewrite (Hno w Hady) in Hm'. done.
  - intros v d Hd. destruct (Hcase v) as [(w & Hady & Hm' & Hd' & _)|(_ & Hd' & _)].
    + right. left. apply Hh'. right. exists v, w. split_and!; [done..|]. congruence.
    + rewrite Hd' in Hd. destruct (Hpend v d Hd) as [?|[Hin|Hdone]]; [by left|..].
      * rewrite Hp in Hin. apply elem_of_cons in Hin as [[= -> ->]|Hin].
        -- right. right. intros x w (ady' & Hg' & Hx)%peso_Some. simplify_eq.
           destruct (Hcase x) as [(w' & Hady & _ & Hdx & _)|(Hno & Hdx & _)].
           ++ simplify_eq. exists (suma k w). split; [done|apply SFltb_irrefl].
           ++ destruct (Hkeys x w Hx) as [dvx Hdvx].
              pose proof (mejora_false_inv dist k x w dvx Hdvx (Hno w Hx)) as Hle.
              exists dvx. split; [congruence|done].
        -- right. left. apply Hh'. by left.
      * right. right. intros x w Hw. destruct (Hdone x w Hw) as (dx & Hdx & Hle).
        destruct (Hmono x dx Hdx) as (dx' & Hdx' & [->|Hle']); [by eauto|].
        exists dx'. split; [done|].
        destruct (SFltb (suma d w) dx') eqn:E; [|done].
        by rewrite (SFltb_trans _ _ _ E Hle') in Hle.
Qed.

Lemma Dijkstra_bucle_etiquetas grafo origen :
  grafo_cerrado grafo →
  ∀ n (dist : dist_t) (prev : prev_t) heap dist' prev',
  inv_etiquetas grafo origen dist prev heap →
  Dijkstra_bucle n grafo (dist, prev, heap) = Ok (dist', prev') →
  inv_etiquetas grafo origen dist' prev' [].
Proof.
  intros Hcl. induction n as [|n IH]; intros dist prev heap dist' prev' Hinv;
    cbn [Dijkstra_bucle].
  - destruct (heappop heap) as [[[k u] h0]|] eqn:Ep; [done|].
    intros [= <- <-]. by apply heappop_None in Ep as ->.
  - destruct (heappop heap) as [[[k u] h0]|] eqn:Ep.
    2:{ intros [= <- <-]. by apply heappop_None in Ep as ->. }
    apply heappop_Some in Ep as [Hp _].
    destruct (ie_heap _ _ _ _ _ Hinv k u) as (d & Hd & Hdk); [rewrite Hp; by left|].
    rewrite Hd. destruct (SFltb d k) eqn:Elt.
    { apply IH. by eapply inv_etiquetas_caducada. }
    destruct Hdk as [->|?]; [|done].
    destruct (grafo !! u) as [ady|] eqn:Hg; [|done].
    destruct (inv_etiquetas_relajar grafo origen dist prev heap k u h0 ady)
      as (d1 & p1 & h1 & Hf & Hinv'); try done.
    rewrite Hf. cbn [res_bind]. by apply IH.
Qed.

(** X8. Sobre un grafo cerrado con pesos que son [float] cualesquiera,
    negativos incluidos, y origen conocido, si [Dijkstra] devuelve un
    resultado, en él ninguna arista mejora ya una distancia: para toda
    arista [u → v] de peso [w], [dist[u] + w < dist[v]] es falso. *)
Theorem X8_pesos_negativos (grafo : grafo_t) (origen : nodo) (n : nat)
    (dist : dist_t) (prev : prev_t) :
  grafo_cerrado grafo → is_Some (grafo !! origen) →
  Dijkstra n grafo origen = Ok (dist, prev) →
  ∀ u v w, peso grafo u v = Some w →
    ∃ du dv, dist !! u = Some du ∧ dist !! v = Some dv ∧
             SFltb (suma du w) dv = false.
Proof.
  intros Hcl Ho Hd. unfold Dijkstra in Hd. destruct Ho as [ady0 Ho]. rewrite Ho in Hd.
  apply (Dijkstra_bucle_etiquetas grafo origen Hcl) in Hd;
    [|apply inv_etiquetas_inicial; eauto].
  destruct Hd as [Hb _ Hpend].
  intros u v w Hw. pose proof Hw as (ady & Hu & Hv)%peso_Some.
  assert (is_Some (dist !! u)) as [du Hdu].
  { apply elem_of_dom. rewrite (ib_dom_dist _ _ _ _ _ Hb). apply elem_of_dom. eauto. }
  assert (is_Some (dist !! v)) as [dv Hdv].
  { apply elem_of_dom. rewrite (ib_dom_dist _ _ _ _ _ Hb). apply elem_of_dom.
    exact (Hcl u ady Hu v w Hv). }
  exists du, dv. split_and!; [done..|].
  destruct (Hpend u du Hdu) as [->|[[]%elem_of_nil|Hedge]]; [apply SFltb_suma_inf|].
  destruct (Hedge v w Hw) as (dx & Hdx & Hle). by simplify_eq.
Qed.

Lemma X8_pesos_negativos_testigo :
  Dijkstra 10 (construir_grafo rutas_con_negativa) "A"
  = Ok ({[ "A" := dbl 0 0; "B" := dbl 1 0; "C" := dbl 2 0 ]},
        {[ "A" := None; "B" := Some "C"; "C" := Some "A" ]})%string ∧
  ∀ u v w, peso (construir_grafo rutas_con_negativa) u v = Some w →
    ∃ du dv,
      ({[ "A" := dbl 0 0; "B" := dbl 1 0; "C" := dbl 2 0 ]}
         : gmap string spec_float) !! u = Some du ∧
      ({[ "A" := dbl 0 0; "B" := dbl 1 0; "C" := dbl 2 0 ]}
         : gmap string spec_float) !! v = Some dv ∧
      SFltb (suma du w) dv = false.
Proof.
  assert (Dijkstra 10 (construir_grafo rutas_con_negativa) "A"
          = Ok ({[ "A" := dbl 0 0; "B" := dbl 1 0; "C" := dbl 2 0 ]},
                {[ "A" := None; "B" := Some "C"; "C" := Some "A" ]})%string) as Hd.
  { apply (bool_decide_unpack _). vm_compute. exact I. }
  split; [exact Hd|].
  apply (X8_pesos_negativos (construir_grafo rutas_con_negativa) "A" 10 _
           {[ "A" := None; "B" := Some "C"; "C" := Some "A" ]}%string).
  - apply (bool_decide_unpack _). vm_compute. exact I.
  - vm_compute. eauto.
  - exact Hd.
Defined.

(** ** Claves ausentes *)

Lemma Dijkstra_bucle_sin_KeyError grafo origen :
  grafo_cerrado grafo →
  ∀ n (dist : dist_t) (prev : prev_t) heap,
  inv_basico grafo origen dist prev heap →
  Dijkstra_bucle n grafo (dist, prev, heap) ≠ KeyError.
Proof.
  intros Hcl. induction n as [|n IH]; intros dist prev heap Hinv; cbn [Dijkstra_bucle].
  - by destruct (heappop heap) as [[[k u] h0]|].
  - destruct (heappop heap) as [[[k u] h0]|] eqn:Ep; [|done].
    apply heappop_Some in Ep as [Hp _].
    assert (∀ e, e ∈ h0 → e ∈ heap) as Hsub.
    { intros e He. rewrite Hp. by right. }
    destruct (ib_heap _ _ _ _ _ Hinv k u) as (d & Hd & Hdf); [rewrite Hp; by left|].
    rewrite Hd. destruct (SFltb d k).
    { apply IH. by eapply inv_basico_heap. }
    assert (is_Some (grafo !! u)) as [ady Hg].
    { apply elem_of_dom. rewrite <- (ib_dom_dist _ _ _ _ _ Hinv). apply elem_of_dom. eauto. }
    rewrite Hg.
    destruct (relajar_todo u k ady dist prev h0) as (d1 & p1 & h1 & Hf & _).
    { intros v w Hv. apply elem_of_dom. rewrite (ib_dom_dist _ _ _ _ _ Hinv).
      apply elem_of_dom. exact (Hcl u ady Hg v w Hv). }
    rewrite Hf. cbn [res_bind]. apply IH.
    eapply foldM_relajar_basico; [|eapply inv_basico_heap; [exact Hsub|exact Hinv]|exact Hf].
    by exists d.
Qed.

Lemma Dijkstra_sin_KeyError (grafo : grafo_t) origen n :
  grafo_cerrado grafo → Dijkstra n grafo origen ≠ KeyError.
Proof.
  intros Hcl. unfold Dijkstra. destruct (grafo !! origen) as [ady|] eqn:Eo; [|done].
  eapply Dijkstra_bucle_sin_KeyError; [done|]. apply inv_basico_inicial. eauto.
Qed.

Lemma caminar_sin_KeyError grafo origen (dist : dist_t) (prev : prev_t) heap n :
  inv_basico grafo origen dist prev heap →
  ∀ v acc, finita dist v → caminar n prev origen (Some v) acc ≠ KeyError.
Proof.
  intros Hb. induction n as [|n IH]; intros v acc Hv; [done|]. cbn [caminar].
  destruct (decide (v = origen)) as [->|Hne]; [done|].
  destruct (ib_cadena _ _ _ _ _ Hb v Hv) as [?|(u & -> & Hu)]; [done|].
  by apply IH.
Qed.

Lemma procesar_envio_sin_KeyError (grafo : grafo_t) n e :
  grafo_cerrado grafo → procesar_envio n grafo e ≠ KeyError.
Proof.
  intros Hcl. destruct e as [[id o] d]. unfold procesar_envio.
  pose proof (Dijkstra_sin_KeyError grafo o n Hcl) as Hk.
  destruct (Dijkstra n grafo o) as [[dist prev]| |] eqn:Ed; [|done..].
  cbn [res_bind]. apply Dijkstra_basico in Ed as (_ & _ & Hb).
  destruct (grafo !! o) as [ady|]; [|done].
  specialize (Hb (mk_is_Some _ _ eq_refl)).
  destruct (dist !! d) as [x|] eqn:Ex; [|done].
  destruct (SFeqb x inf) eqn:Ef; [done|].
  unfold reconstruir_camino. destruct (prev !! d); [|done].
  assert (finita dist d) as Hfd by (by exists x).
  pose proof (caminar_sin_KeyError _ _ _ _ _ n Hb d [] Hfd) as Hc.
  destruct (caminar n prev o (Some d) []) as [[|c0 c]| |]; cbn [res_bind]; try done.
  by case_decide.
Qed.

(** X9. Sobre el grafo que sale de [construir_grafo], sean cuales sean los
    pesos, los envíos y las vueltas concedidas, [procesar_envios] no acaba
    nunca en [KeyError]: ninguna consulta a un diccionario encuentra una
    clave ausente. *)
Theorem X9_sin_clave_ausente (rutas : list ruta) (envios : list envio) (n : nat) :
  procesar_envios n (construir_grafo rutas) envios ≠ KeyError.
Proof.
  unfold procesar_envios. induction envios as [|e envios IH]; [done|]. cbn [mapM].
  pose proof (procesar_envio_sin_KeyError (construir_grafo rutas) n e
                (construir_grafo_cerrado rutas)) as He.
  destruct (procesar_envio n (construir_grafo rutas) e) as [r| |]; [|done..].
  cbn [res_bind].
  by destruct (mapM (procesar_envio n (construir_grafo rutas)) envios).
Qed.

(** ** La reconstrucción sobre un mapa de predecesores cualquiera *)

Lemma caminar_cadena (prev : prev_t) origen n :
  ∀ u acc p, caminar n prev origen (Some u) acc = Ok p →
  ∃ c, p = c ++ acc ∧ last c = Some u ∧
       Forall (λ e, prev !! e.2 = Some (Some e.1)) (aristas_de c) ∧
       Forall (λ x, x ≠ origen) (tail c) ∧
       (head c = Some origen ∨ ∃ c0, head c = Some c0 ∧ prev !! c0 = Some None).
Proof.
  induction n as [|n IH]; intros u acc p; [done|]. cbn [caminar].
  destruct (decide (u = origen)) as [->|Hne].
  { intros [= <-]. exists [origen]. split_and!; try done; by left. }
  destruct (prev !! u) as [[u2|]|] eqn:Hp; [| |done].
  - intros (c & -> & Hl & Hch & Hno & Hh)%IH.
    exists (c ++ [u]). split_and!.
    + by rewrite <- app_assoc.
    + apply last_snoc.
    + rewrite (aristas_de_snoc c u2 u Hl). apply Forall_app. split; [done|].
      by constructor.
    + destruct c as [|c0 c]; [done|]. cbn [tail app] in *.
      apply Forall_app. split; [done|]. by constructor.
    + destruct c as [|c0 c]; [done|]. done.
  - assert (caminar n prev origen None (u :: acc) = Ok (u :: acc)) as ->
      by (by destruct n).
    intros [= <-]. exists [u]. split_and!; try done.
    right. by exists u.
Qed.

(** X10. Para cualquier mapa de predecesores, lo que [reconstruir_camino]
    devuelve es la lista vacía o una cadena que empieza en el origen, acaba
    en el destino, une cada nodo con su predecesor y no vuelve a pasar por
    el origen. *)
Theorem X10_reconstruccion_es_cadena (prev : prev_t) (origen destino : nodo)
    (n : nat) (p : list string) :
  reconstruir_camino n prev origen destino = Ok p →
  p = [] ∨
  (head p = Some origen ∧ last p = Some destino ∧
   Forall (λ e, prev !! e.2 = Some (Some e.1)) (aristas_de p) ∧
   Forall (λ x, x ≠ origen) (tail p)).
Proof.
  unfold reconstruir_camino. destruct (prev !! destino); [|intros [= <-]; by left].
  destruct (caminar n prev origen (Some destino) []) as [c| |] eqn:Ec; [|done..].
  cbn [res_bind]. apply caminar_cadena in Ec as (c' & -> & Hl & Hch & Hno & _).
  rewrite app_nil_r. destruct c' as [|c0 c']; [done|].
  case_decide as Hc0; intros [= <-]; [|by left].
  right. subst. by split_and!.
Qed.

Lemma X10_reconstruccion_es_cadena_testigo :
  ["A"; "B"; "C"]%string = [] ∨
  (head ["A"; "B"; "C"]%string = Some "A"%string ∧
   last ["A"; "B"; "C"]%string = Some "C"%string ∧
   Forall (λ e, prev_suelto !! e.2 = Some (Some e.1))
          (aristas_de ["A"; "B"; "C"]%string) ∧
   Forall (λ x, x ≠ "A"%string) (tail ["A"; "B"; "C"]%string)).
Proof.
  apply (X10_reconstruccion_es_cadena prev_suelto "A" "C" 5).
  vm_compute. reflexivity.
Defined.

(** ** La reconstrucción sobre el resultado de Dijkstra, de nuevo *)

Lemma reconstruir_camino_sin_predecesor (prev : prev_t) origen destino n :
  destino ≠ origen → (1 ≤ n)%nat →
  prev !! destino = Some None ∨ prev !! destino = None →
  reconstruir_camino n prev origen destino = Ok [].
Proof.
  intros Hne Hn [Hp|Hp]; unfold reconstruir_camino; rewrite Hp; [|done].
  destruct n as [|n]; [lia|]. cbn [caminar].
  rewrite decide_False by done. rewrite Hp.
  destruct n; cbn [caminar res_bind]; by rewrite decide_False.
Qed.

(** X11. Con pesos no negativos y origen conocido, para un destino al que
    [Dijkstra] deja sin distancia finita la reconstrucción sobre sus
    predecesores devuelve la lista vacía. *)
Theorem X11_inalcanzable_camino_vacio (grafo : grafo_t) (origen : nodo) (n : nat) :
  grafo_cerrado grafo → pesos_no_negativos grafo →
  is_Some (grafo !! origen) →
  (combustible grafo ≤ n)%nat →
  ∃ dist prev,
    Dijkstra n grafo origen = Ok (dist, prev) ∧
    ∀ v, dist !! v = Some inf ∨ dist !! v = None →
         reconstruir_camino n prev origen v = Ok [].
Proof.
  intros Hcl Hnn Ho Hn.
  destruct (Dijkstra_total grafo origen n) as (dist & prev & cerrados & m & Hd & Hinv);
    auto using combustible_dijkstra.
  exists dist, prev. split; [done|]. intros v Hv.
  pose proof (ib_dom_dist _ _ _ _ _ (id_basico _ _ _ _ _ _ _ Hinv)) as Hdd.
  pose proof (ib_dom_prev _ _ _ _ _ (id_basico _ _ _ _ _ _ _ Hinv)) as Hdp.
  destruct (id_origen _ _ _ _ _ _ _ Hinv) as [Hs _].
  apply reconstruir_camino_sin_predecesor.
  - intros ->. rewrite Hs in Hv. by destruct Hv.
  - unfold combustible in Hn. lia.
  - destruct (prev !! v) as [[u|]|] eqn:Hp; [|by left|by right].
    destruct (id_prev _ _ _ _ _ _ _ Hinv v u Hp) as [_ (w & d & _ & _ & Hdv & Hf)].
    rewrite Hdv in Hv. destruct Hv as [Hv|Hv]; [|done].
    injection Hv as Hv. rewrite Hv, valor_inf in Hf. lia.
Qed.

Lemma X11_inalcanzable_camino_vacio_testigo :
  ∃ dist prev,
    Dijkstra 10 grafo_ejemplo "B" = Ok (dist, prev) ∧
    ∀ v, dist !! v = Some inf ∨ dist !! v = None →
         reconstruir_camino 10 prev "B" v = Ok [].
Proof.
  apply (X11_inalcanzable_camino_vacio grafo_ejemplo "B" 10).
  - apply (bool_decide_unpack _). vm_compute. exact I.
  - apply (bool_decide_unpack _). vm_compute. exact I.
  - vm_compute. eauto.
  - vm_compute. lia.
Defined.

Lemma caminar_cerrados_sin_repetir grafo origen cerrados m (dist : dist_t) (prev : prev_t) :
  inv_dijkstra grafo origen cerrados m dist prev [] →
  ∀ l2 l1, cerrados = l1 ++ l2 →
  ∀ v, v ∈ l2 → ∀ n acc, (length l2 ≤ n)%nat →
  ∃ p, caminar n prev origen (Some v) acc = Ok (p ++ acc) ∧
       NoDup p ∧ ∀ x, x ∈ p → x ∈ l2.
Proof.
  intros Hinv. induction l2 as [|a l2 IH]; intros l1 Heq v Hv n acc Hn.
  { by apply elem_of_nil in Hv. }
  assert (cerrados = (l1 ++ [a]) ++ l2) as Heq' by (by rewrite <- app_assoc).
  assert (a ∉ l2) as Ha.
  { pose proof (id_nodup _ _ _ _ _ _ _ Hinv) as Hnd. rewrite Heq in Hnd.
    apply NoDup_app in Hnd as (_ & _ & Hnd). by apply NoDup_cons in Hnd as [? _]. }
  destruct (decide (v ∈ l2)) as [Hin|Hnin].
  { destruct (IH _ Heq' v Hin n acc) as (p & Hc & Hnd & Hsub); [simpl in Hn; lia|].
    exists p. split_and!; [done..|]. intros x Hx. right. by apply Hsub. }
  apply elem_of_cons in Hv as [->|?]; [|done].
  destruct n as [|n]; [simpl in Hn; lia|]. simpl in Hn.
  destruct (id_cerrados _ _ _ _ _ _ _ Hinv a) as (d & Hd & Hdf & _).
  { rewrite Heq. apply elem_of_app. right. by left. }
  cbn [caminar]. destruct (decide (a = origen)) as [->|Hne].
  { exists [origen]. split_and!; [done|apply NoDup_singleton|].
    intros x ->%list_elem_of_singleton. by left. }
  destruct (ib_cadena _ _ _ _ _ (id_basico _ _ _ _ _ _ _ Hinv) a) as [?|(u & Hpu & _)];
    [exists d; split; [done|]; by eapply inv_dijkstra_finita|done|].
  rewrite Hpu.
  pose proof (id_orden _ _ _ _ _ _ _ Hinv l1 a l2 u Heq Hpu) as Hu.
  destruct (IH _ Heq' u Hu n (a :: acc)) as (p & Hc & Hnd & Hsub); [lia|].
  exists (p ++ [a]). split_and!.
  - by rewrite <- app_assoc.
  - apply NoDup_app. split_and!; [done| |apply NoDup_singleton].
    intros x Hx ->%list_elem_of_singleton. by apply Ha, Hsub.
  - intros x [Hx| ->%list_elem_of_singleton]%elem_of_app; [right; by apply Hsub|by left].
Qed.

Lemma reconstruir_camino_sin_repetir grafo origen cerrados m (dist : dist_t)
    (prev : prev_t) n destino d p :
  inv_dijkstra grafo origen cerrados m dist prev [] →
  dist !! destino = Some d → SFeqb d inf = false → (size grafo ≤ n)%nat →
  reconstruir_camino n prev origen destino = Ok p → NoDup p.
Proof.
  intros Hinv Hd Hdf Hn.
  pose proof (cerrados_length _ _ _ _ _ _ _ Hinv) as Hlen.
  apply (inv_dijkstra_finita _ _ _ _ _ _ _ _ _ Hinv Hd) in Hdf.
  destruct (id_pend _ _ _ _ _ _ _ Hinv destino d Hd Hdf) as [Hin|[]%elem_of_nil].
  destruct (caminar_cerrados_sin_repetir _ _ _ _ _ _ Hinv cerrados [] eq_refl
              destino Hin n []) as (c & Hc & Hnd & _); [lia|].
  rewrite app_nil_r in Hc. unfold reconstruir_camino.
  destruct (prev !! destino); [|intros [= <-]; apply NoDup_nil_2].
  rewrite Hc. cbn [res_bind]. destruct c as [|c0 c]; [by intros [= <-]|].
  case_decide; intros [= <-]; [done|apply NoDup_nil_2].
Qed.

(** X12. Con pesos no negativos, el camino de todo envío resuelto no pasa
    dos veces por el mismo nodo. *)
Theorem X12_camino_sin_repetir (grafo : grafo_t) (envios : list envio) (n : nat) :
  grafo_cerrado grafo → pesos_no_negativos grafo →
  (combustible grafo ≤ n)%nat →
  ∃ rs, procesar_envios n grafo envios = Ok rs ∧
        Forall (λ r, ∀ p, r_camino r = Some p → NoDup p) rs.
Proof.
  intros Hcl Hnn Hn.
  destruct (mapM_Forall2 (procesar_envio n grafo)
              (λ _ r, ∀ p, r_camino r = Some p → NoDup p) envios) as (rs & Hrs & HF).
  2:{ exists rs. split; [done|]. clear Hrs. induction HF; by constructor. }
  intros [[id o] d] _. unfold procesar_envio.
  destruct (grafo !! o) as [ady|] eqn:Eo.
  2:{ unfold Dijkstra. rewrite Eo. cbn [res_bind]. eexists. by split. }
  destruct (Dijkstra_total grafo o n) as (dist & prev & cerrados & m & Hd & Hinv);
    eauto using combustible_dijkstra.
  rewrite Hd. cbn [res_bind].
  destruct (dist !! d) as [x|] eqn:Ex; [|eexists; by split].
  destruct (SFeqb x inf) eqn:Ef; [eexists; by split|].
  destruct (reconstruir_camino_total grafo o cerrados m dist prev n d x)
    as (p & Hp & _); eauto using combustible_camino.
  rewrite Hp. cbn [res_bind]. eexists. split; [done|]. intros p' [= <-].
  apply (reconstruir_camino_sin_repetir grafo o cerrados m dist prev n d x p Hinv Ex Ef);
    [by apply combustible_camino|done].
Qed.

Lemma X12_camino_sin_repetir_testigo :
  ∃ rs, procesar_envios 10 grafo_ejemplo envios_ejemplo = Ok rs ∧
        Forall (λ r, ∀ p, r_camino r = Some p → NoDup p) rs.
Proof.
  apply (X12_camino_sin_repetir grafo_ejemplo envios_ejemplo 10).
  - apply (bool_decide_unpack _). vm_compute. exact I.
  - apply (bool_decide_unpack _). vm_compute. exact I.
  - vm_compute. lia.
Defined.

(** ** El desenlace de cada envío *)

Lemma procesar_envio_clasifica (grafo : grafo_t) n id o d :
  grafo_cerrado grafo → pesos_no_negativos grafo →
  (combustible grafo ≤ n)%nat →
  ∃ r, procesar_envio n grafo (id, o, d) = Ok r ∧
       (estado_de r = ORIGIN_UNKNOWN ↔ grafo !! o = None) ∧
       (estado_de r = RESOLVED ↔
          is_Some (grafo !! o) ∧
          ∃ p w, es_camino grafo o d p w ∧ SFeqb w inf = false) ∧
       (∀ dd, r_dist r = Some dd →
              ∀ p w, es_camino grafo o d p w → SFleb dd w = true) ∧
       (grafo !! d = None → estado_de r ≠ RESOLVED ∧ r_camino r = None).
Proof.
  intros Hcl Hnn Hn. unfold procesar_envio.
  destruct (grafo !! o) as [ady|] eqn:Eo.
  2:{ unfold Dijkstra. rewrite Eo. cbn [res_bind]. eexists. split; [done|].
      split_and!; try done. split; [done|]. by intros [[? ?] _]. }
  destruct (Dijkstra_total grafo o n) as (dist & prev & cerrados & m & Hd & Hinv);
    eauto using combustible_dijkstra.
  rewrite Hd. cbn [res_bind].
  pose proof (inv_dijkstra_minimo _ _ _ _ _ _ Hcl Hnn Hinv) as Hmin.
  destruct (dist !! d) as [x|] eqn:Ex.
  2:{ eexists. split; [done|]. split_and!; try done.
      split; [done|]. intros [_ (p & w & Hp & _)].
      destruct (Hmin p d w Hp) as (dv & Hdv & _). congruence. }
  pose proof (id_nn _ _ _ _ _ _ _ Hinv d x Ex) as Hnx.
  destruct (SFeqb x inf) eqn:Ef.
  - eexists. split; [done|]. split_and!; try done.
    split; [done|]. intros [_ (p & w & Hp & Hw)].
    destruct (Hmin p d w Hp) as (dv & Hdv & _ & Hnw & Hle).
    apply SFeqb_inf_false in Hw; [|done].
    rewrite SFeqb_valor in Ef by done. apply Z.eqb_eq in Ef. rewrite valor_inf in Ef.
    simplify_eq. lia.
  - destruct (reconstruir_camino_total grafo o cerrados m dist prev n d x)
      as (p & Hp & Hh & Hl & Hdc); eauto using combustible_camino.
    rewrite Hp. cbn [res_bind]. eexists. split; [done|]. split_and!.
    + done.
    + split; [|done]. intros _. split; [done|]. by exists p, x.
    + intros dd [= <-] p' w Hp'.
      destruct (Hmin p' d w Hp') as (dv & Hdv & _ & Hnw & Hle).
      simplify_eq. by apply SFleb_true_iff.
    + intros Hdn. exfalso.
      assert (is_Some (grafo !! d)) as [? ?]; [|congruence].
      apply elem_of_dom. rewrite <- (ib_dom_dist _ _ _ _ _ (id_basico _ _ _ _ _ _ _ Hinv)).
      apply elem_of_dom. eauto.
Qed.

(** X13. Con pesos no negativos, cada envío del lote acaba en origen
    desconocido exactamente cuando su origen no es clave del grafo, y
    resuelto exactamente cuando su origen es clave y hay en el grafo un
    camino del origen al destino cuyos pesos tienen suma [float] no
    infinita; en los demás casos, inalcanzable. *)
Theorem X13_desenlace_de_cada_envio (grafo : grafo_t) (envios : list envio) (n : nat) :
  grafo_cerrado grafo → pesos_no_negativos grafo →
  (combustible grafo ≤ n)%nat →
  ∃ rs, procesar_envios n grafo envios = Ok rs ∧
        Forall2 (λ (e : envio) r,
                   (estado_de r = ORIGIN_UNKNOWN ↔ grafo !! e.1.2 = None) ∧
                   (estado_de r = RESOLVED ↔
                      is_Some (grafo !! e.1.2) ∧
                      ∃ p w, es_camino grafo e.1.2 e.2 p w ∧ SFeqb w inf = false))
                envios rs.
Proof.
  intros Hcl Hnn Hn. apply mapM_Forall2. intros [[id o] d] _.
  destruct (procesar_envio_clasifica grafo n id o d) as (r & Hr & H1 & H2 & _); eauto.
Qed.

Lemma X13_desenlace_de_cada_envio_testigo :
  ∃ rs, procesar_envios 10 grafo_ejemplo envios_ejemplo = Ok rs ∧
        Forall2 (λ (e : envio) r,
                   (estado_de r = ORIGIN_UNKNOWN ↔ grafo_ejemplo !! e.1.2 = None) ∧
                   (estado_de r = RESOLVED ↔
                      is_Some (grafo_ejemplo !! e.1.2) ∧
                      ∃ p w, es_camino grafo_ejemplo e.1.2 e.2 p w ∧
                             SFeqb w inf = false))
                envios_ejemplo rs.
Proof.
  apply (X13_desenlace_de_cada_envio grafo_ejemplo envios_ejemplo 10).
  - apply (bool_decide_unpack _). vm_compute. exact I.
  - apply (bool_decide_unpack _). vm_compute. exact I.
  - vm_compute. lia.
Defined.

(** X14. Con pesos no negativos, la distancia de un envío resuelto no
    supera la suma [float], de izquierda a derecha, de los pesos de ningún
    camino del grafo entre su origen y su destino. *)
Theorem X14_distancia_resuelta_minima (grafo : grafo_t) (envios : list envio)
    (n : nat) :
  grafo_cerrado grafo → pesos_no_negativos grafo →
  (combustible grafo ≤ n)%nat →
  ∃ rs, procesar_envios n grafo envios = Ok rs ∧
        Forall2 (λ (e : envio) r,
                   ∀ dd, r_dist r = Some dd →
                   ∀ p w, es_camino grafo e.1.2 e.2 p w → SFleb dd w = true)
                envios rs.
Proof.
  intros Hcl Hnn Hn. apply mapM_Forall2. intros [[id o] d] _.
  destruct (procesar_envio_clasifica grafo n id o d) as (r & Hr & _ & _ & H3 & _); eauto.
Qed.

Lemma X14_distancia_resuelta_minima_testigo :
  ∃ rs, procesar_envios 10 grafo_ejemplo envios_ejemplo = Ok rs ∧
        Forall2 (λ (e : envio) r,
                   ∀ dd, r_dist r = Some dd →
                   ∀ p w, es_camino grafo_ejemplo e.1.2 e.2 p w → SFleb dd w = true)
                envios_ejemplo rs.
Proof.
  apply (X14_distancia_resuelta_minima grafo_ejemplo envios_ejemplo 10).
  - apply (bool_decide_unpack _). vm_compute. exact I.
  - apply (bool_decide_unpack _). vm_compute. exact I.
  - vm_compute. lia.
Defined.

(** X15. Con pesos no negativos, un envío cuyo destino no es clave del
    grafo no interrumpe el lote: queda sin resolver, sin distancia y sin
    camino. *)
Theorem X15_destino_desconocido (grafo : grafo_t) (envios : list envio) (n : nat) :
  grafo_cerrado grafo → pesos_no_negativos grafo →
  (combustible grafo ≤ n)%nat →
  ∃ rs, procesar_envios n grafo envios = Ok rs ∧
        Forall2 (λ (e : envio) r,
                   grafo !! e.2 = None →
                   estado_de r ≠ RESOLVED ∧ r_dist r = None ∧ r_camino r = None)
                envios rs.
Proof.
  intros Hcl Hnn Hn. apply mapM_Forall2. intros [[id o] d] _.
  destruct (procesar_envio_clasifica grafo n id o d) as (r & Hr & _ & _ & _ & H4); eauto.
  exists r. split; [done|]. intros Hd. destruct (H4 Hd) as [Hne Hc].
  split_and!; [done| |done].
  unfold estado_de in Hne. by destruct (r_dist r).
Qed.

Lemma X15_destino_desconocido_testigo :
  ∃ rs, procesar_envios 10 grafo_ejemplo [(9, "A", "Q")]%string = Ok rs ∧
        Forall2 (λ (e : envio) r,
                   grafo_ejemplo !! e.2 = None →
                   estado_de r ≠ RESOLVED ∧ r_dist r = None ∧ r_camino r = None)
                [(9, "A", "Q")]%string rs.
Proof.
  apply (X15_destino_desconocido grafo_ejemplo [(9, "A", "Q")]%string 10).
  - apply (bool_decide_unpack _). vm_compute. exact I.
  - apply (bool_decide_unpack _). vm_compute. exact I.
  - vm_compute. lia.
Defined.
